(** * Search_AI: the asynchronous result-correlation engine

    A shallow embedding of the TypeScript sources

    - [src/app/api/isv-search/route.ts]
      ([normalizeUrl], [enrichWithSignalHire], [searchISVs]) and
    - [src/ceo-fetcher/app/api/signalhire/callback/route.ts]
      (the callback sink: [POST] and [GET]),

    together with the properties the specification states about them.

    JavaScript values are embedded as the JSON data they are at run time
    (every value the handlers touch comes out of [JSON.parse]); a faulting
    operation ([TypeError], rejected [fetch], unparsable body) is a [Throw]
    in an explicit error monad, so that [try]/[catch] can be written out. *)

From Stdlib Require Import Ascii String ZArith NArith Bool Lia.
From stdpp Require Import base option list gmap strings pretty.


#[local] Arguments String.append !_ _ / : simpl nomatch.

(* ===================================================================== *)
(** * JavaScript values and faults                                        *)
(* ===================================================================== *)

Module JS.

(** JSON-shaped run-time values.  Numbers only ever have their
    truthiness inspected by the modelled code, so an integer stands for
    a JSON number.  Objects are finite maps from property names. *)
#[warnings="-register-all"] Inductive jsval : Type :=
| JUndefined
| JNull
| JBool (b : bool)
| JNum (n : Z)
| JStr (s : string)
| JArr (items : list jsval)
| JObj (fields : gmap string jsval).

(** What a [throw] carries. *)
Inductive exn : Type :=
| TypeError      (* property of null/undefined, call of a non-function *)
| NetworkError   (* a rejected [fetch] *)
| SyntaxError    (* a body that is not JSON *)
| IOError        (* a rejected [writeFile] *)
| Error (msg : string).

Inductive result (A : Type) : Type :=
| Ok (a : A)
| Throw (e : exn).
Arguments Ok {A} a.
Arguments Throw {A} e.

#[global] Instance result_ret : MRet result := fun _ a => Ok a.
#[global] Instance result_bind : MBind result := fun _ _ f m =>
  match m with Ok a => f a | Throw e => Throw e end.

(** [ToBoolean]. *)
Definition truthy (v : jsval) : bool :=
  match v with
  | JUndefined | JNull => false
  | JBool b => b
  | JNum n => negb (n =? 0)%Z
  | JStr s => negb (String.eqb s "")
  | JArr _ | JObj _ => true
  end.

(** [v.k] for a data property [k].  Reading a property of [null] or
    [undefined] throws; an object yields its field or [undefined];
    primitives and arrays yield [undefined] for the property names the
    modelled code reads.  (The one inherited name among them, the legacy
    [String.prototype.link], is read only in [r.link && r.title], where
    the missing [title] makes the conjunction falsy either way.) *)
Definition get_prop (v : jsval) (k : string) : result jsval :=
  match v with
  | JUndefined | JNull => Throw TypeError
  | JObj o => Ok (default JUndefined (o !! k))
  | _ => Ok JUndefined
  end.

(** [a || b] on already evaluated operands. *)
Definition js_or (a b : jsval) : jsval := if truthy a then a else b.

(** [v === 'lit']. *)
Definition strict_eq_str (v : jsval) (lit : string) : bool :=
  match v with JStr s => String.eqb s lit | _ => false end.

(** ** Strings *)

(** [String.prototype.toLowerCase] on one character.  Strings are
    sequences of 8-bit characters here; [A]-[Z] are the characters
    that lower-casing changes. *)
Definition lower_char (c : ascii) : ascii :=
  let n := N_of_ascii c in
  if ((65 <=? n) && (n <=? 90))%N then ascii_of_N (n + 32) else c.

Fixpoint lower (s : string) : string :=
  match s with
  | EmptyString => EmptyString
  | String c s' => String (lower_char c) (lower s')
  end.

(** [v.toLowerCase()]: only a string has the method. *)
Definition toLowerCase (v : jsval) : result string :=
  match v with
  | JStr s => Ok (lower s)
  | _ => Throw TypeError
  end.

Fixpoint starts_with (p s : string) : bool :=
  match p, s with
  | EmptyString, _ => true
  | String a p', String b s' => Ascii.eqb a b && starts_with p' s'
  | String _ _, EmptyString => false
  end.

(** [s.includes(t)]: [t] occurs in [s] at some index. *)
Fixpoint includes (s t : string) : bool :=
  starts_with t s ||
  match s with
  | EmptyString => false
  | String _ s' => includes s' t
  end.

(** ** Regular expressions

    The fragment of the regular-expression language the sources use:
    [^], [$], a literal character and an optional literal [c?]. *)
Inductive atom : Type :=
| Bol               (* ^ *)
| Eol               (* $ *)
| Lit (c : ascii)
| Opt (c : ascii).  (* c? , greedy *)

Definition regex := list atom.

(** Match [re] against the text starting at the current index;
    [at_start] says whether that index is 0.  The remainder of the text
    after the match is returned. *)
Fixpoint match_here (re : regex) (at_start : bool) (s : string)
  : option string :=
  match re with
  | [] => Some s
  | Bol :: re' => if at_start then match_here re' at_start s else None
  | Eol :: re' =>
      match s with
      | EmptyString => match_here re' at_start s
      | String _ _ => None
      end
  | Lit c :: re' =>
      match s with
      | String a s' =>
          if Ascii.eqb a c then match_here re' false s' else None
      | EmptyString => None
      end
  | Opt c :: re' =>
      let taken :=
        match s with
        | String a s' =>
            if Ascii.eqb a c then match_here re' false s' else None
        | EmptyString => None
        end in
      match taken with
      | Some r => Some r
      | None => match_here re' at_start s
      end
  end.

(** [s.replace(re, '')] for a regular expression without the [g] flag:
    the leftmost index at which [re] matches is found and the matched
    text is deleted; without a match [s] is returned. *)
Fixpoint replace_from (re : regex) (at_start : bool) (s : string)
  : string :=
  match match_here re at_start s with
  | Some rest => rest
  | None =>
      match s with
      | EmptyString => EmptyString
      | String a s' => String a (replace_from re false s')
      end
  end.

Definition replace (re : regex) (s : string) : string :=
  replace_from re true s.

Definition lits (s : string) : regex :=
  Lit <$> list_ascii_of_string s.

(** [s.replace(/[:.]/g, '-')]: every [:] and [.] becomes [-]. *)
Fixpoint replace_colon_dot (s : string) : string :=
  match s with
  | EmptyString => EmptyString
  | String c s' =>
      String (if Ascii.eqb c ":" || Ascii.eqb c "." then "-"%char else c)
             (replace_colon_dot s')
  end.

(** ** Objects *)

(** The own enumerable properties an object spread [{...v}] copies:
    the fields of an object, the indexed elements of an array, the
    indexed characters of a string, nothing for the other values. *)
Fixpoint indexed {A} (i : nat) (l : list A) : list (string * A) :=
  match l with
  | [] => []
  | x :: l' => (pretty i, x) :: indexed (S i) l'
  end.

Definition own_props (v : jsval) : gmap string jsval :=
  match v with
  | JObj o => o
  | JArr l => list_to_map (indexed 0 l)
  | JStr s =>
      list_to_map
        (indexed 0 ((fun c => JStr (String c "")) <$> list_ascii_of_string s))
  | _ => ∅
  end.

(** [arr.find(pred)] where the callback may throw. *)
Fixpoint find (pred : jsval -> result bool) (l : list jsval)
  : result (option jsval) :=
  match l with
  | [] => Ok None
  | x :: l' =>
      b ← pred x;
      if (b : bool) then Ok (Some x) else find pred l'
  end.

(** [arr.filter(pred)] where the callback may throw. *)
Fixpoint filter (pred : jsval -> result bool) (l : list jsval)
  : result (list jsval) :=
  match l with
  | [] => Ok []
  | x :: l' =>
      b ← pred x;
      rest ← filter pred l';
      Ok (if (b : bool) then x :: rest else rest)
  end.

(** A value used as an array receiver: [v.find], [v.filter] exist only
    on arrays. *)
Definition as_array (v : jsval) : result (list jsval) :=
  match v with
  | JArr l => Ok l
  | _ => Throw TypeError
  end.

End JS.
Import JS.

(* ===================================================================== *)
(** * src/app/api/isv-search/route.ts                                     *)
(* ===================================================================== *)

(** [/^https?:\/\//], [/^www\./] and [/\/$/]. *)
Definition re_scheme : regex :=
  Bol :: lits "http" ++ Opt "s" :: lits "://".
Definition re_www : regex := Bol :: lits "www.".
Definition re_trailing_slash : regex := [Lit "/"; Eol].

(** [normalizeUrl]: the argument is declared a string but receives
    whatever the payload holds, so it is a [jsval] here. *)
Definition normalizeUrl (url : jsval) : result string :=
  if negb (truthy url) then Ok ""
  else
    s ← toLowerCase url;
    Ok (replace re_trailing_slash (replace re_www (replace re_scheme s))).

(** ** The matcher: the callback of [allResults.find] (lines 28-35) *)

Definition is_match (company r : jsval) : result bool :=
  candidate ← get_prop r "candidate";
  if negb (truthy candidate) then Ok false
  else
    website ← get_prop candidate "website";
    exact ←
      (if truthy website then
         a ← normalizeUrl website;
         cw ← get_prop company "website";
         b ← normalizeUrl cw;
         Ok (String.eqb a b)
       else Ok false);
    if (exact : bool) then Ok true
    else
      ccompany ← get_prop candidate "company";
      if negb (truthy ccompany) then Ok false
      else
        name ← get_prop company "name";
        if negb (truthy name) then Ok false
        else
          hay ← toLowerCase ccompany;
          needle ← toLowerCase name;
          Ok (includes hay needle).

(** [allResults.find(...)]: [allResults] is whatever the poll endpoint
    returned. *)
Definition findMatch (company allResults : jsval) : result (option jsval) :=
  l ← as_array allResults;
  JS.find (is_match company) l.

(** ** Building the [ceo] object (lines 36-45) *)

Definition ceo_object (name title email phone : jsval) : jsval :=
  JObj (<["name" := name]> (<["title" := title]>
       (<["email" := email]> (<["phone" := phone]> ∅)))).

(** [contacts.find((c) => c.type === kind)?.value] *)
Definition contact_value (kind : string) (contacts : jsval) : result jsval :=
  l ← as_array contacts;
  found ← JS.find (fun c => t ← get_prop c "type"; Ok (strict_eq_str t kind)) l;
  match found with
  | None => Ok JUndefined
  | Some c => get_prop c "value"
  end.

Definition build_ceo (candidate : jsval) : result jsval :=
  c0 ← get_prop candidate "contacts";
  let contacts := js_or c0 (JArr []) in
  fullName ← get_prop candidate "fullName";
  headLine ← get_prop candidate "headLine";
  email ← contact_value "email" contacts;
  phone ← contact_value "phone" contacts;
  Ok (ceo_object (js_or fullName (JStr "N/A")) (js_or headLine (JStr "N/A"))
                 (js_or email (JStr "N/A")) (js_or phone (JStr "N/A"))).

Definition NOT_FOUND : jsval :=
  ceo_object (JStr "Not found") (JStr "") (JStr "") (JStr "").
Definition ERROR_CEO : jsval :=
  ceo_object (JStr "Error") (JStr "") (JStr "") (JStr "").

(** ** The polling loop (lines 23-47)

    The outside world as one poll sees it: the time the two awaits of the
    poll take ([fetch] and [res.json()]), what they produce, and by how
    much the 1500 ms timer overshoots.  Durations are natural numbers of
    milliseconds: the clock does not run backwards. *)
Record Tick : Type := {
  fetch_ms : N;
  response : result jsval;
  timer_extra_ms : N
}.

Definition TIMEOUT_MS : Z := 15000.
Definition POLL_INTERVAL_MS : Z := 1500.

(** One pass through the loop body up to the [break]:
    [Some ceo] when a match was found, [None] otherwise. *)
Definition poll_once (company : jsval) (t : Tick) : result (option jsval) :=
  allResults ← response t;
  found ← findMatch company allResults;
  match found with
  | None => Ok None
  | Some r =>
      candidate ← get_prop r "candidate";
      if truthy candidate then ceo ← build_ceo candidate; Ok (Some ceo)
      else Ok None
  end.

(** [while (Date.now() - start < 15000) { ... }].  [elapsed] is
    [Date.now() - start] at the loop test, [k] counts the polls made so
    far; the result is the value of [ceo] after the loop.  [fuel] bounds
    the number of loop tests; [None] means it ran out. *)
Fixpoint poll_loop (fuel : nat) (company : jsval) (ticks : nat -> Tick)
  (k : nat) (elapsed : Z) : option (result jsval) :=
  match fuel with
  | O => None
  | S fuel' =>
      if (elapsed <? TIMEOUT_MS)%Z then
        let t := ticks k in
        match poll_once company t with
        | Throw e => Some (Throw e)
        | Ok (Some ceo) => Some (Ok ceo)
        | Ok None =>
            poll_loop fuel' company ticks (S k)
              (elapsed + Z.of_N (fetch_ms t)
               + POLL_INTERVAL_MS + Z.of_N (timer_extra_ms t))
        end
      else Some (Ok JNull)
  end.

(** ** [enrichWithSignalHire] (lines 16-57) *)

Record Env : Type := {
  dispatch : jsval -> result unit;   (* POST /api/signalhire/search *)
  ticks : nat -> Tick
}.

(** What the function hands back: the resolved value of the promise and
    what it wrote with [console.error]. *)
Record Enriched : Type := {
  value : jsval;
  logged : list exn
}.

(** [{ ...company, ceo }] *)
Definition with_ceo (company ceo : jsval) : jsval :=
  JObj (<["ceo" := ceo]> (own_props company)).

(** The [try] block. *)
Definition enrich_try (fuel : nat) (env : Env) (company : jsval)
  : option (result jsval) :=
  match get_prop company "website" with
  | Throw e => Some (Throw e)
  | Ok website =>
      match dispatch env website with
      | Throw e => Some (Throw e)
      | Ok _ =>
          match poll_loop fuel company (ticks env) 0 0 with
          | None => None
          | Some (Throw e) => Some (Throw e)
          | Some (Ok ceo) =>
              let ceo' := if negb (truthy ceo) then NOT_FOUND else ceo in
              Some (Ok (with_ceo company ceo'))
          end
      end
  end.

Definition enrichWithSignalHire (fuel : nat) (env : Env) (company : jsval)
  : option Enriched :=
  match enrich_try fuel env company with
  | None => None
  | Some (Ok v) => Some {| value := v; logged := [] |}
  | Some (Throw e) =>
      Some {| value := with_ceo company ERROR_CEO; logged := [e] |}
  end.

(** Loop tests that are always enough: ten polls of at least 1500 ms
    each reach the 15000 ms budget, and the eleventh test ends the loop. *)
Definition ENOUGH_FUEL : nat := 11.

(** ** [searchISVs] (lines 59-86) *)

(** The de-duplicating [filter] with its [seen] set (lines 78-83). *)
Fixpoint dedupe (seen : gset string) (results : list jsval)
  : result (list jsval) :=
  match results with
  | [] => Ok []
  | company :: rest =>
      website ← get_prop company "website";
      norm ← normalizeUrl website;
      if String.eqb norm "" || bool_decide (norm ∈ seen) then dedupe seen rest
      else
        kept ← dedupe ({[norm]} ∪ seen) rest;
        Ok (company :: kept)
  end.

Definition has_link_and_title (r : jsval) : result bool :=
  link ← get_prop r "link";
  if truthy link then title ← get_prop r "title"; Ok (truthy title)
  else Ok false.

Definition to_company (r : jsval) : result jsval :=
  title ← get_prop r "title";
  link ← get_prop r "link";
  Ok (JObj (<["name" := title]> (<["website" := link]> ∅))).

Fixpoint map_result (f : jsval -> result jsval) (l : list jsval)
  : result (list jsval) :=
  match l with
  | [] => Ok []
  | x :: l' => y ← f x; ys ← map_result f l'; Ok (y :: ys)
  end.

(** Lines 70-75: the top three organic results that have a link and a
    title, as [{name, website}] records. *)
Definition top_results (serpData : jsval) : result (list jsval) :=
  organic ← get_prop serpData "organic_results";
  l ← as_array (js_or organic (JArr []));
  withLink ← JS.filter has_link_and_title l;
  map_result to_company (take 3 withLink).

Record SerpEnv : Type := {
  SERPAPI_KEY : jsval;
  (* [fetch(serpApiUrl)]: [serpRes.ok] and the outcome of [serpRes.json()] *)
  serp_fetch : string -> result (bool * result jsval)
}.

Definition searchISVs (env : SerpEnv) (query : string) : result (list jsval) :=
  if negb (truthy (SERPAPI_KEY env)) then
    Throw (Error "SerpAPI key is missing")
  else
    res ← serp_fetch env query;
    if negb (fst res) then Throw (Error "Failed to fetch from SerpAPI")
    else
      serpData ← snd res;
      results ← top_results serpData;
      dedupe ∅ results.

(* ===================================================================== *)
(** * src/ceo-fetcher/app/api/signalhire/callback/route.ts                *)
(* ===================================================================== *)

Module CallbackRoute.

(** The module-level [responses] array, the [data] directory and the
    console. *)
Record State : Type := {
  responses : list jsval;
  data_dir : gmap string jsval;
  console : list exn
}.

(** One inbound request as the handler sees it: the outcome of
    [request.json()], the clock reading [new Date().toISOString()],
    and whether [writeFile] succeeds. *)
Record Request : Type := {
  body : result jsval;
  now_iso : string;
  write_ok : bool
}.

Record Response : Type := {
  status : Z;
  json : jsval
}.

Definition initial : State :=
  {| responses := []; data_dir := ∅; console := [] |}.

Definition success_body : jsval := JObj (<["status" := JStr "success"]> ∅).
Definition error_body : jsval :=
  JObj (<["status" := JStr "error"]>
       (<["message" := JStr "Failed to process callback"]> ∅)).

Definition backup_name (iso : string) : string :=
  "signalhire_response_" +:+ replace_colon_dot iso +:+ ".json".

(** The file content is [JSON.stringify(data, null, 2)]; the stored
    value stands for that text. *)
Definition POST (st : State) (req : Request) : State * Response :=
  match body req with
  | Throw e =>
      ({| responses := responses st; data_dir := data_dir st;
          console := (console st ++ [e])%list |},
       {| status := 500; json := error_body |})
  | Ok data =>
      let pushed := (responses st ++ [data])%list in
      let filename := backup_name (now_iso req) in
      if write_ok req then
        ({| responses := pushed;
            data_dir := <[filename := data]> (data_dir st);
            console := console st |},
         {| status := 200; json := success_body |})
      else
        ({| responses := pushed; data_dir := data_dir st;
            console := (console st ++ [IOError])%list |},
         {| status := 500; json := error_body |})
  end.

Definition GET (st : State) : Response :=
  {| status := 200; json := JArr (responses st) |}.

(** A run of the server: the requests handled so far, oldest first. *)
Definition ingest_all (st : State) (reqs : list Request) : State :=
  foldl (fun s r => fst (POST s r)) st reqs.

End CallbackRoute.

(* ===================================================================== *)
(** * The specification's wording, as definitions of its own              *)
(* ===================================================================== *)

Module Spec.

(** [strip_prefix p s] is [Some t] exactly when [s] is [p] followed by
    [t]. *)
Fixpoint strip_prefix (p s : string) : option string :=
  match p, s with
  | EmptyString, _ => Some s
  | String a p', String b s' =>
      if Ascii.eqb b a then strip_prefix p' s' else None
  | String _ _, EmptyString => None
  end.

(** "strips a leading scheme ([http://]/[https://]) if present" *)
Definition strip_scheme (s : string) : string :=
  match strip_prefix "http://" s with
  | Some t => t
  | None => default s (strip_prefix "https://" s)
  end.

(** "strips a leading [www.] label if present" *)
Definition strip_www (s : string) : string :=
  default s (strip_prefix "www." s).

(** "strips exactly one trailing [/]" *)
Fixpoint strip_trailing_slash (s : string) : string :=
  match s with
  | EmptyString => EmptyString
  | String c EmptyString => if Ascii.eqb c "/" then EmptyString else s
  | String c s' => String c (strip_trailing_slash s')
  end.

(** Section 4.1 of the specification. *)
Definition normalize (s : string) : string :=
  strip_trailing_slash (strip_www (strip_scheme (lower s))).

Fixpoint ends_with_slash (s : string) : bool :=
  match s with
  | EmptyString => false
  | String c EmptyString => Ascii.eqb c "/"
  | String _ s' => ends_with_slash s'
  end.

(** A string on which no rule of the normalizer acts any more. *)
Definition fully_normalized (n : string) : bool :=
  negb (starts_with "http://" n) && negb (starts_with "https://" n)
  && negb (starts_with "www." n) && negb (ends_with_slash n).

(** Section 4.4, rule (a): equal normalized websites, both non-empty. *)
Definition exact_match (recordWebsite requestedWebsite : string) : bool :=
  let a := normalize recordWebsite in
  let b := normalize requestedWebsite in
  negb (String.eqb a "") && negb (String.eqb b "") && String.eqb a b.

(** Section 4.4, rule (b): the lower-cased company name contains the
    non-empty lower-cased requested name. *)
Definition fallback_match (companyName requestedName : string) : bool :=
  negb (String.eqb requestedName "")
  && includes (lower companyName) (lower requestedName).

(** Section 4.4: only [status=success] records are considered. *)
Definition record_matches (status recordWebsite companyName
                           requestedName requestedWebsite : string) : bool :=
  String.eqb status "success"
  && (exact_match recordWebsite requestedWebsite
      || fallback_match companyName requestedName).

End Spec.

(** Well-typed payloads, for examples: a query as [searchISVs] builds it
    and a callback record as the enrichment service sends it. *)
Definition mk_company (name website : string) : jsval :=
  JObj (<["name" := JStr name]> (<["website" := JStr website]> ∅)).

Definition mk_candidate (website company : string) : jsval :=
  JObj (<["website" := JStr website]> (<["company" := JStr company]> ∅)).

Definition mk_record (status website company : string) : jsval :=
  JObj (<["status" := JStr status]>
       (<["candidate" := mk_candidate website company]> ∅)).

(** A [ceo] object built from a matched candidate: the four fields are
    present and truthy (a missing one is replaced by ['N/A']). *)
Definition populated (ceo : jsval) : Prop :=
  exists name title email phone,
    ceo = ceo_object name title email phone /\
    truthy name = true /\ truthy title = true /\
    truthy email = true /\ truthy phone = true.

(** The de-duplication key of a search result,
    [normalizeUrl(company.website)]. *)
Definition website_key (company : jsval) : result string :=
  website ← get_prop company "website";
  normalizeUrl website.

Definition key_of (company : jsval) : string :=
  match website_key company with
  | Ok n => n
  | Throw _ => ""
  end.

(* ===================================================================== *)
(** * The callers and callees of the engine                               *)
(* ===================================================================== *)

(** [Date.now() - start] at the loop test that precedes poll number [j],
    when no earlier poll left the loop. *)
Fixpoint elapsed_before (tk : nat -> Tick) (j : nat) : Z :=
  match j with
  | O => 0
  | S i =>
      (elapsed_before tk i + Z.of_N (fetch_ms (tk i))
       + POLL_INTERVAL_MS + Z.of_N (timer_extra_ms (tk i)))%Z
  end.

(** ** [POST] and [GET] of src/app/api/isv-search/route.ts (lines 88-104) *)

Module IsvSearchRoute.

Record Response : Type := {
  status : Z;
  json : jsval
}.

(** What the handler meets outside: the outcome of [request.json()], the
    text [encodeURIComponent(query)] puts into the search URL, the search
    engine, the world as the enrichment of the i-th company sees it, and
    the [message] the platform gives a fault it raises itself. *)
Record World : Type := {
  request_body : result jsval;
  encode : jsval -> string;
  serp : SerpEnv;
  enrich_env : nat -> Env;
  message : exn -> string
}.

Definition error_message (w : World) (e : exn) : string :=
  match e with
  | Error msg => msg
  | _ => message w e
  end.

(** The reply, what the handler itself wrote with [console.error], and
    what each enrichment returned. *)
Record Outcome : Type := {
  reply : Response;
  console : list exn;
  enrichments : list Enriched
}.

(** [Promise.all(companies.map(enrichWithSignalHire))] *)
Fixpoint enrich_each (fuel : nat) (envs : nat -> Env) (i : nat)
  (companies : list jsval) : option (list Enriched) :=
  match companies with
  | [] => Some []
  | company :: rest =>
      e ← enrichWithSignalHire fuel (envs i) company;
      es ← enrich_each fuel envs (S i) rest;
      Some (e :: es)
  end.

Definition POST (fuel : nat) (w : World) : option Outcome :=
  let searched : result (option (list jsval)) :=
    body ← request_body w;
    query ← get_prop body "query";
    if negb (truthy query) then Ok None
    else
      companies ← searchISVs (serp w) (encode w query);
      Ok (Some companies) in
  match searched with
  | Throw e =>
      Some {| reply := {| status := 500;
                          json := JObj (<["error" := JStr (error_message w e)]> ∅) |};
              console := [e]; enrichments := [] |}
  | Ok None =>
      Some {| reply := {| status := 400;
                          json := JObj (<["error" := JStr "Query is required"]> ∅) |};
              console := []; enrichments := [] |}
  | Ok (Some companies) =>
      es ← enrich_each fuel (enrich_env w) 0 companies;
      Some {| reply := {| status := 200;
                          json := JObj (<["results" := JArr (value <$> es)]> ∅) |};
              console := []; enrichments := es |}
  end.

Definition GET : Response :=
  {| status := 200;
     json := JObj (<["message" := JStr "ISV Search API is working!"]> ∅) |}.

End IsvSearchRoute.

(** ** The dispatcher route [/api/signalhire/search]
       (src/unnamed/part_001) *)

Module SignalHireSearchRoute.

Record Response : Type := {
  status : Z;
  json : jsval
}.

(** The request sent to the enrichment service: the [apikey] header and
    the JSON body. *)
Record Outbound : Type := {
  apikey : string;
  payload : jsval
}.

(** The service's answer: [response.status] and the outcomes of
    [response.text()] and [response.json()]. *)
Record Upstream : Type := {
  upstream_status : Z;
  text : result string;
  body_json : result jsval
}.

(** [response.ok]: the status is in the range 200..299. *)
Definition ok (response : Upstream) : bool :=
  ((200 <=? upstream_status response) && (upstream_status response <=? 299))%Z.

Record World : Type := {
  request_body : result jsval;
  SG_HIRE : option string;                (* process.env.SG_HIRE *)
  NEXT_PUBLIC_BASE_URL : option string;   (* process.env.NEXT_PUBLIC_BASE_URL *)
  signalhire : Outbound -> result Upstream
}.

(** What the [catch] clause can receive. *)
Inductive fault : Type :=
| Thrown (e : exn)
| RangeError.   (* a reply status outside 200..599 *)

Record Outcome : Type := {
  reply : Response;
  sent : list Outbound;
  console : list fault
}.

Definition failed (sent : list Outbound) (f : fault) : Outcome :=
  {| reply := {| status := 500;
                 json := JObj (<["error" := JStr "Failed to search SignalHire"]> ∅) |};
     sent := sent; console := [f] |}.

(** [`${process.env.NEXT_PUBLIC_BASE_URL}/api/signalhire/callback`] *)
Definition callbackUrl (w : World) : string :=
  default "undefined" (NEXT_PUBLIC_BASE_URL w) +:+ "/api/signalhire/callback".

Definition searchData (w : World) (website : jsval) : jsval :=
  JObj (<["items" := JArr [website]]>
       (<["callbackUrl" := JStr (callbackUrl w)]> ∅)).

Definition outbound (w : World) (website : jsval) : Outbound :=
  {| apikey := default "" (SG_HIRE w); payload := searchData w website |}.

(** [NextResponse.json(body, { status })]: the constructor refuses a
    status outside 200..599 and a body together with status 304. *)
Definition respond (sent : list Outbound) (s : Z) (body : jsval) : Outcome :=
  if ((s <? 200) || (599 <? s))%Z then failed sent RangeError
  else if (s =? 204)%Z || (s =? 205)%Z || (s =? 304)%Z then
    failed sent (Thrown TypeError)
  else {| reply := {| status := s; json := body |}; sent := sent; console := [] |}.

Definition POST (w : World) : Outcome :=
  match request_body w with
  | Throw e => failed [] (Thrown e)
  | Ok body =>
      match get_prop body "website" with
      | Throw e => failed [] (Thrown e)
      | Ok website =>
          if negb (truthy website) then
            {| reply := {| status := 400;
                           json := JObj (<["error" := JStr "Website is required"]> ∅) |};
               sent := []; console := [] |}
          else
            let out := outbound w website in
            match signalhire w out with
            | Throw e => failed [out] (Thrown e)
            | Ok response =>
                if negb (ok response) then
                  match text response with
                  | Throw e => failed [out] (Thrown e)
                  | Ok error =>
                      respond [out] (upstream_status response)
                        (JObj (<["error" := JStr ("SignalHire API error: " +:+ error)]> ∅))
                  end
                else
                  match body_json response with
                  | Throw e => failed [out] (Thrown e)
                  | Ok data => respond [out] 200 data
                  end
            end
      end
  end.

End SignalHireSearchRoute.

(** ** The poll callback of src/ceo-fetcher/app/page.tsx (lines 41-62)

    [results] is the array the callback route's [GET] returns; the result
    is the argument of [setCeoInfo], if it is called. *)

Module CeoFetcherPage.

Definition poll_update (results : list jsval) : result (option jsval) :=
  match last results with
  | None => Ok None
  | Some latestResult =>
      status ← get_prop latestResult "status";
      if strict_eq_str status "success" then
        candidate ← get_prop latestResult "candidate";
        if truthy candidate then
          c0 ← get_prop candidate "contacts";
          let contacts := js_or c0 (JArr []) in
          email ← contact_value "email" contacts;
          phone ← contact_value "phone" contacts;
          fullName ← get_prop candidate "fullName";
          headLine ← get_prop candidate "headLine";
          Ok (Some (ceo_object (js_or fullName (JStr "N/A"))
                               (js_or headLine (JStr "N/A"))
                               (js_or email (JStr "N/A"))
                               (js_or phone (JStr "N/A"))))
        else Ok None
      else Ok None
  end.

End CeoFetcherPage.

(** ** The stand-alone callback server, src/signalhire_callback_server.js

    A line group written to the console for one result is one [report];
    the two banner lines around them are the same for every request and
    left out. *)

Module CallbackServer.

Inductive report : Type :=
| Success (number : nat) (name title email phone company : jsval)
| NotFound (number : nat) (item : jsval)
| Other (number : nat) (status item : jsval)
| Raw (body : jsval).

(** [v?.[0]] *)
Definition first_of (v : jsval) : jsval :=
  match v with
  | JArr (x :: _) => x
  | JStr (String c _) => JStr (String c "")
  | JObj o => default JUndefined (o !! "0")
  | _ => JUndefined
  end.

(** [v?.k] *)
Definition get_opt (v : jsval) (k : string) : result jsval :=
  match v with
  | JUndefined | JNull => Ok JUndefined
  | _ => get_prop v k
  end.

(** The body of the [forEach] callback for the element at index [idx]. *)
Definition report_result (idx : nat) (r : jsval) : result report :=
  status ← get_prop r "status";
  candidate ← (if strict_eq_str status "success" then get_prop r "candidate"
               else Ok JUndefined);
  if strict_eq_str status "success" && truthy candidate then
    c0 ← get_prop candidate "contacts";
    email ← contact_value "email" (js_or c0 (JArr []));
    c1 ← get_prop candidate "contacts";
    phone ← contact_value "phone" (js_or c1 (JArr []));
    fullName ← get_prop candidate "fullName";
    headLine ← get_prop candidate "headLine";
    experience ← get_prop candidate "experience";
    company ← get_opt (first_of experience) "company";
    Ok (Success (S idx) (js_or fullName (JStr "N/A")) (js_or headLine (JStr "N/A"))
                (js_or email (JStr "N/A")) (js_or phone (JStr "N/A"))
                (js_or company (JStr "N/A")))
  else if strict_eq_str status "failed" then
    item ← get_prop r "item";
    Ok (NotFound (S idx) item)
  else
    item ← get_prop r "item";
    Ok (Other (S idx) status item).

(** [req.body.forEach(...)]: the reports written before a fault, and the
    fault if there is one. *)
Fixpoint report_each (idx : nat) (l : list jsval) : list report * option exn :=
  match l with
  | [] => ([], None)
  | r :: rest =>
      match report_result idx r with
      | Throw e => ([], Some e)
      | Ok rep =>
          let '(reps, fault) := report_each (S idx) rest in
          (rep :: reps, fault)
      end
  end.

(** The handler of [POST /callback]: the console and the reply status
    (a fault in the handler makes the framework answer 500). *)
Definition callback (body : jsval) : list report * Z :=
  match body with
  | JArr l =>
      let '(reps, fault) := report_each 0 l in
      (reps, match fault with None => 200%Z | Some _ => 500%Z end)
  | _ => ([Raw body], 200%Z)
  end.

End CallbackServer.

(* ===================================================================== *)
(** * Strings and regular expressions                                     *)
(* ===================================================================== *)

Section StringFacts.

Lemma lower_char_idem c : lower_char (lower_char c) = lower_char c.
Proof. destruct c as [[] [] [] [] [] [] [] []]; reflexivity. Qed.

Lemma lower_idem s : lower (lower s) = lower s.
Proof. induction s as [|c s IH]; simpl; [done|]. by rewrite lower_char_idem, IH. Qed.

Lemma lower_app s t : lower (s +:+ t) = lower s +:+ lower t.
Proof. induction s as [|c s IH]; [done|]. change (String c s +:+ t) with (String c (s +:+ t)). simpl. by rewrite IH. Qed.

Lemma app_cons c s t : String c s +:+ t = String c (s +:+ t).
Proof. reflexivity. Qed.

Lemma string_length_app s t :
  String.length (s +:+ t) = String.length s + String.length t.
Proof. induction s as [|c s IH]; [done|]. rewrite app_cons. simpl. by rewrite IH. Qed.

Lemma strip_prefix_Some p s t :
  Spec.strip_prefix p s = Some t <-> s = p +:+ t.
Proof.
  revert s. induction p as [|a p IH]; intros s; simpl.
  - split; congruence.
  - destruct s as [|b s]; [split; discriminate|].
    destruct (Ascii.eqb_spec b a) as [->|Hne].
    + rewrite IH. split; congruence.
    + split; [discriminate|]. intros [= -> _]. done.
Qed.

Lemma starts_with_strip_prefix p s :
  starts_with p s = true <-> is_Some (Spec.strip_prefix p s).
Proof.
  revert s. induction p as [|a p IH]; intros s; simpl.
  - split; eauto.
  - destruct s as [|b s]; [split; [discriminate|by intros [? ?]]|].
    rewrite Ascii.eqb_sym. destruct (Ascii.eqb b a); simpl; [apply IH|].
    split; [discriminate|by intros [? ?]].
Qed.

Lemma starts_with_app p t : starts_with p (p +:+ t) = true.
Proof.
  induction p as [|a p IH]; simpl; [done|].
  by rewrite Ascii.eqb_refl, IH.
Qed.

Lemma starts_with_inv p s :
  starts_with p s = true -> exists t, s = p +:+ t.
Proof.
  rewrite starts_with_strip_prefix. intros [t Ht].
  exists t. by apply strip_prefix_Some.
Qed.

Lemma strip_prefix_None p s :
  starts_with p s = false -> Spec.strip_prefix p s = None.
Proof.
  intros H. destruct (Spec.strip_prefix p s) eqn:E; [|done].
  assert (starts_with p s = true) by (apply starts_with_strip_prefix; eauto).
  congruence.
Qed.

Lemma includes_here s t : starts_with t s = true -> includes s t = true.
Proof. destruct s; simpl; intros ->; done. Qed.

(** [includes] is the substring relation. *)
Lemma includes_spec s t :
  includes s t = true <-> exists pre post, s = pre +:+ t +:+ post.
Proof.
  split.
  - induction s as [|c s IH]; simpl.
    + rewrite orb_false_r. intros [post E]%starts_with_inv. by exists "", post.
    + intros [[post E]%starts_with_inv | H]%orb_true_iff.
      * by exists "", post.
      * destruct (IH H) as (pre & post & ->). by exists (String c pre), post.
  - intros (pre & post & ->). induction pre as [|c pre IH]; simpl.
    + apply includes_here, starts_with_app.
    + rewrite IH. apply orb_true_r.
Qed.

End StringFacts.

Section RegexFacts.

(** A pattern anchored with [^] cannot match once the scan has left
    index 0, so the rest of the text is copied unchanged. *)
Lemma replace_from_bol_false re s : replace_from (Bol :: re) false s = s.
Proof. induction s as [|a s IH]; simpl; [done|]. by rewrite IH. Qed.

Lemma replace_bol re s :
  replace (Bol :: re) s = default s (match_here re true s).
Proof.
  unfold replace. destruct s as [|a s]; simpl.
  - by destruct (match_here re true "").
  - destruct (match_here re true (String a s)); simpl; [done|].
    by rewrite replace_from_bol_false.
Qed.

Lemma match_here_lits c p re b s :
  match_here (lits (String c p) ++ re) b s =
    match Spec.strip_prefix (String c p) s with
    | Some t => match_here re false t
    | None => None
    end.
Proof.
  revert c b s. induction p as [|d p IH]; intros c b s.
  - simpl. destruct s as [|a s]; [done|]. by destruct (Ascii.eqb a c).
  - change (lits (String c (String d p)) ++ re)
      with (Lit c :: (lits (String d p) ++ re)).
    destruct s as [|a s]; [done|].
    change (Spec.strip_prefix (String c (String d p)) (String a s))
      with (if Ascii.eqb a c then Spec.strip_prefix (String d p) s else None).
    simpl match_here. destruct (Ascii.eqb a c); [apply (IH d false s)|done].
Qed.

Lemma match_here_lits_only c p b s :
  match_here (lits (String c p)) b s = Spec.strip_prefix (String c p) s.
Proof.
  rewrite <- (app_nil_r (lits (String c p))), (match_here_lits c p [] b s).
  by destruct (Spec.strip_prefix (String c p) s).
Qed.

Lemma strip_prefix_app p q s :
  Spec.strip_prefix (p +:+ q) s =
    match Spec.strip_prefix p s with
    | Some t => Spec.strip_prefix q t
    | None => None
    end.
Proof.
  revert s. induction p as [|a p IH]; intros s; simpl; [done|].
  destruct s as [|b s]; [done|]. destruct (Ascii.eqb b a); [apply IH|done].
Qed.

(** [/^www\./] deletes a leading [www.] and nothing else. *)
Lemma replace_www s : replace re_www s = Spec.strip_www s.
Proof.
  unfold re_www, Spec.strip_www. by rewrite replace_bol, match_here_lits_only.
Qed.

(** [/^https?:\/\//] deletes a leading [http://] or [https://]. *)
Lemma replace_scheme s : replace re_scheme s = Spec.strip_scheme s.
Proof.
  unfold re_scheme, Spec.strip_scheme.
  rewrite replace_bol, match_here_lits.
  change "http://" with ("http" +:+ "://").
  change "https://" with ("http" +:+ "s://").
  rewrite !strip_prefix_app.
  destruct (Spec.strip_prefix "http" s) as [t|]; [|done].
  destruct t as [|a t]; [done|]. simpl.
  destruct (Ascii.eqb_spec a "s") as [->|Hne]; simpl;
    repeat match goal with
      | |- context [match ?x with EmptyString => _ | String _ _ => _ end] =>
          is_var x; destruct x; simpl
      | |- context [Ascii.eqb ?c ?d] => destruct (Ascii.eqb c d); simpl
      end; done.
Qed.

(** [/\/$/] deletes a [/] that is the last character. *)
Lemma replace_from_trailing_slash b s :
  replace_from re_trailing_slash b s = Spec.strip_trailing_slash s.
Proof.
  revert b. induction s as [|a s IH]; intros b; [done|].
  simpl. destruct (Ascii.eqb a "/"); destruct s as [|a' s']; try done.
  - by rewrite <- (IH false).
  - by rewrite <- (IH false).
Qed.

Lemma replace_trailing_slash s :
  replace re_trailing_slash s = Spec.strip_trailing_slash s.
Proof. apply replace_from_trailing_slash. Qed.

End RegexFacts.

Section NormalizerFacts.

(** The code and the wording of section 4.1 agree on every string. *)
Lemma normalizeUrl_string s : normalizeUrl (JStr s) = Ok (Spec.normalize s).
Proof.
  unfold normalizeUrl, Spec.normalize. simpl truthy.
  destruct (String.eqb_spec s "") as [->|Hne]; simpl; [done|].
  by rewrite replace_scheme, replace_www, replace_trailing_slash.
Qed.

Lemma strip_trailing_slash_app t : Spec.strip_trailing_slash (t +:+ "/") = t.
Proof.
  induction t as [|c t IH]; [done|].
  simpl. rewrite IH. by destruct (t +:+ "/") eqn:E; [destruct t|].
Qed.

Lemma ends_with_slash_app t : Spec.ends_with_slash (t +:+ "/") = true.
Proof.
  induction t as [|c t IH]; [done|].
  simpl. rewrite IH. by destruct (t +:+ "/") eqn:E; [destruct t|].
Qed.

Lemma strip_trailing_slash_id s :
  Spec.ends_with_slash s = false -> Spec.strip_trailing_slash s = s.
Proof.
  induction s as [|c s IH]; [done|]. simpl.
  destruct s as [|c' s']; [by intros ->|]. intros H. by rewrite IH.
Qed.

Lemma strip_trailing_slash_shorter s :
  Spec.ends_with_slash s = true ->
  String.length (Spec.strip_trailing_slash s) < String.length s.
Proof.
  induction s as [|c s IH]; [done|]. simpl.
  destruct s as [|c' s']; [intros ->; simpl; lia|].
  intros H. specialize (IH H). simpl in *. lia.
Qed.

Lemma strip_trailing_slash_lower s :
  lower s = s -> lower (Spec.strip_trailing_slash s) = Spec.strip_trailing_slash s.
Proof.
  induction s as [|c s IH]; [done|]. intros [= Hc Hs]. simpl.
  destruct s as [|c' s'].
  - destruct (Ascii.eqb c "/"); simpl; [done|]. by rewrite Hc.
  - simpl in *. rewrite Hc. f_equal. apply IH. by rewrite Hs.
Qed.

Lemma app_lower_suffix p t : lower (p +:+ t) = p +:+ t -> lower t = t.
Proof.
  induction p as [|c p IH]; [done|]. simpl. intros [= _ H]. by apply IH.
Qed.

Lemma strip_prefix_lower p s t :
  Spec.strip_prefix p s = Some t -> lower s = s -> lower t = t.
Proof. intros ->%strip_prefix_Some. apply app_lower_suffix. Qed.

Lemma strip_prefix_length p s t :
  Spec.strip_prefix p s = Some t ->
  String.length s = String.length p + String.length t.
Proof. intros ->%strip_prefix_Some. apply string_length_app. Qed.

Lemma strip_www_lower s : lower s = s -> lower (Spec.strip_www s) = Spec.strip_www s.
Proof.
  unfold Spec.strip_www. destruct (Spec.strip_prefix "www." s) eqn:E; simpl; [|done].
  eauto using strip_prefix_lower.
Qed.

Lemma strip_scheme_lower s :
  lower s = s -> lower (Spec.strip_scheme s) = Spec.strip_scheme s.
Proof.
  unfold Spec.strip_scheme.
  destruct (Spec.strip_prefix "http://" s) eqn:E1; [eauto using strip_prefix_lower|].
  destruct (Spec.strip_prefix "https://" s) eqn:E2; simpl; [|done].
  eauto using strip_prefix_lower.
Qed.

Lemma normalize_lower s : lower (Spec.normalize s) = Spec.normalize s.
Proof.
  unfold Spec.normalize.
  apply strip_trailing_slash_lower, strip_www_lower, strip_scheme_lower, lower_idem.
Qed.

Lemma strip_trailing_slash_le s :
  String.length (Spec.strip_trailing_slash s) <= String.length s.
Proof.
  destruct (Spec.ends_with_slash s) eqn:E.
  - apply strip_trailing_slash_shorter in E. lia.
  - by rewrite strip_trailing_slash_id.
Qed.

Lemma strip_www_le s : String.length (Spec.strip_www s) <= String.length s.
Proof.
  unfold Spec.strip_www. destruct (Spec.strip_prefix "www." s) eqn:E; simpl; [|done].
  apply strip_prefix_length in E. lia.
Qed.

(** On a string no rule applies to, the three deletions do nothing. *)
Lemma fully_normalized_fixed n :
  Spec.fully_normalized n = true ->
  Spec.strip_trailing_slash (Spec.strip_www (Spec.strip_scheme n)) = n.
Proof.
  unfold Spec.fully_normalized.
  intros [[[H1%negb_true_iff H2%negb_true_iff]%andb_true_iff
             H3%negb_true_iff]%andb_true_iff H4%negb_true_iff]%andb_true_iff.
  unfold Spec.strip_scheme, Spec.strip_www.
  rewrite (strip_prefix_None _ _ H1), (strip_prefix_None _ _ H2).
  change (default n None) with n.
  rewrite (strip_prefix_None _ _ H3).
  by apply strip_trailing_slash_id.
Qed.

(** On any other string some rule deletes at least one character. *)
Lemma not_fully_normalized_shrinks n :
  Spec.fully_normalized n = false ->
  String.length (Spec.strip_trailing_slash (Spec.strip_www (Spec.strip_scheme n)))
  < String.length n.
Proof.
  unfold Spec.fully_normalized. intros H.
  assert (forall x, String.length (Spec.strip_trailing_slash (Spec.strip_www x))
                    <= String.length x) as Htail.
  { intros x. pose proof (strip_trailing_slash_le (Spec.strip_www x)).
    pose proof (strip_www_le x). lia. }
  unfold Spec.strip_scheme.
  destruct (starts_with "http://" n) eqn:S1.
  { apply starts_with_strip_prefix in S1 as [t E]. rewrite E.
    apply strip_prefix_length in E. specialize (Htail t).
    change (String.length "http://") with 7 in E. lia. }
  rewrite (strip_prefix_None _ _ S1).
  destruct (starts_with "https://" n) eqn:S2.
  { apply starts_with_strip_prefix in S2 as [t E]. rewrite E.
    apply strip_prefix_length in E. specialize (Htail t).
    change (String.length "https://") with 8 in E.
    change (default n (Some t)) with t. lia. }
  rewrite (strip_prefix_None _ _ S2).
  change (default n None) with n.
  unfold Spec.strip_www.
  destruct (starts_with "www." n) eqn:S3.
  { apply starts_with_strip_prefix in S3 as [t E]. rewrite E.
    apply strip_prefix_length in E.
    change (String.length "www.") with 4 in E.
    change (default n (Some t)) with t.
    pose proof (strip_trailing_slash_le t). lia. }
  rewrite (strip_prefix_None _ _ S3).
  change (default n None) with n.
  apply strip_trailing_slash_shorter.
  simpl in H. by apply negb_false_iff in H.
Qed.

End NormalizerFacts.

(* ===================================================================== *)
(** * The normalizer                                                      *)
(* ===================================================================== *)

(** C5. [normalizeUrl] maps [null], [undefined] and the empty string to
    the empty string, and on every string it is the composition the
    specification describes: lower-case, delete a leading [http://] or
    [https://], delete a leading [www.], delete one trailing [/] (one
    only: of two trailing slashes one is left); a string without the
    prefix or suffix in question passes that step unchanged.  Hence
    [normalizeUrl("https://www.Example.com/")] and
    [normalizeUrl("example.com")] are the same string. *)
Theorem normalizeUrl_contract :
  normalizeUrl JNull = Ok "" /\
  normalizeUrl JUndefined = Ok "" /\
  normalizeUrl (JStr "") = Ok "" /\
  (forall s : string,
      normalizeUrl (JStr s)
      = Ok (Spec.strip_trailing_slash
              (Spec.strip_www (Spec.strip_scheme (lower s))))) /\
  (forall t : string,
      Spec.strip_scheme ("http://" +:+ t) = t /\
      Spec.strip_scheme ("https://" +:+ t) = t /\
      Spec.strip_www ("www." +:+ t) = t /\
      Spec.strip_trailing_slash (t +:+ "/") = t) /\
  (forall s : string,
      (starts_with "http://" s = false -> starts_with "https://" s = false ->
       Spec.strip_scheme s = s) /\
      (starts_with "www." s = false -> Spec.strip_www s = s) /\
      (Spec.ends_with_slash s = false -> Spec.strip_trailing_slash s = s)) /\
  normalizeUrl (JStr "example.com//") = Ok "example.com/" /\
  normalizeUrl (JStr "https://www.Example.com/")
  = normalizeUrl (JStr "example.com").
Proof.
  split; [reflexivity|]. split; [reflexivity|]. split; [reflexivity|].
  split; [apply normalizeUrl_string|]. split; [|split].
  - intros t. repeat split; try reflexivity. apply strip_trailing_slash_app.
  - intros s. split; [|split].
    + intros H1 H2. unfold Spec.strip_scheme.
      by rewrite (strip_prefix_None _ _ H1), (strip_prefix_None _ _ H2).
    + intros H. unfold Spec.strip_www. by rewrite (strip_prefix_None _ _ H).
    + apply strip_trailing_slash_id.
  - split; reflexivity.
Qed.

Lemma normalizeUrl_contract_witness :
  starts_with "www." "example.com" = false /\
  Spec.strip_www "example.com" = "example.com".
Proof.
  split; [reflexivity|].
  refine (proj1 (proj2 (proj1 (proj2 (proj2 (proj2 (proj2 (proj2
            normalizeUrl_contract))))) "example.com")) _).
  reflexivity.
Defined.

(** C4, as the specification states it, fails: a second application can
    delete a further trailing slash or a further prefix. *)
Lemma normalizeUrl_not_idempotent :
  normalizeUrl (JStr "example.com//") = Ok "example.com/" /\
  normalizeUrl (JStr "example.com/") <> Ok "example.com/" /\
  normalizeUrl (JStr "http://www.www.a.io") = Ok "www.a.io" /\
  normalizeUrl (JStr "www.a.io") <> Ok "www.a.io".
Proof. repeat split; (reflexivity || discriminate). Qed.

(** C4, amended. [normalizeUrl(normalizeUrl(s))] equals [normalizeUrl(s)]
    exactly when [normalizeUrl(s)] carries no further leading [http://],
    [https://] or [www.] and no trailing [/]; the empty string is mapped
    to itself. *)
Theorem normalizeUrl_idempotent_iff (s n : string) :
  normalizeUrl (JStr s) = Ok n ->
  (normalizeUrl (JStr n) = Ok n <-> Spec.fully_normalized n = true) /\
  normalizeUrl (JStr "") = Ok "".
Proof.
  rewrite !normalizeUrl_string. intros [= <-]. split; [|reflexivity].
  unfold Spec.normalize at 1. rewrite normalize_lower.
  split.
  - intros [= H]. destruct (Spec.fully_normalized (Spec.normalize s)) eqn:E; [done|].
    apply not_fully_normalized_shrinks in E. rewrite H in E. lia.
  - intros H. f_equal. by apply fully_normalized_fixed.
Qed.

Lemma normalizeUrl_idempotent_iff_witness :
  normalizeUrl (JStr "https://www.Example.com/") = Ok "example.com" /\
  (normalizeUrl (JStr "example.com") = Ok "example.com"
   <-> Spec.fully_normalized "example.com" = true).
Proof.
  split; [reflexivity|].
  apply (normalizeUrl_idempotent_iff "https://www.Example.com/" "example.com").
  reflexivity.
Defined.

(* ===================================================================== *)
(** * The matcher                                                         *)
(* ===================================================================== *)

(** Invert one monadic bind in a hypothesis that ends in [Ok]. *)
Ltac bind_inv H :=
  match type of H with
  | mbind _ ?m = Ok _ =>
      let E := fresh "E" in
      destruct m eqn:E; [cbn [mbind result_bind] in H | discriminate H]
  | result_bind _ _ _ ?m = Ok _ =>
      let E := fresh "E" in
      destruct m eqn:E; [cbn [mbind result_bind] in H | discriminate H]
  end.

Lemma bind_ok {A B} (f : A -> result B) a : (Ok a ≫= f) = f a.
Proof. reflexivity. Qed.

(** Run the binds whose left operand is already a value. *)
Ltac run_binds := repeat (progress (rewrite ?bind_ok; cbn beta iota)).

Section MatcherFacts.

Lemma normalizeUrl_truthy w a :
  truthy w = true -> normalizeUrl w = Ok a ->
  exists s, w = JStr s /\ s <> "" /\ a = Spec.normalize s.
Proof.
  intros Ht H. destruct w; try (unfold normalizeUrl in H; rewrite Ht in H; discriminate).
  exists s. rewrite normalizeUrl_string in H. injection H as <-.
  split; [done|]. split; [|done]. intros ->. discriminate.
Qed.

Lemma toLowerCase_ok v s :
  toLowerCase v = Ok s -> exists t, v = JStr t /\ s = lower t.
Proof. destruct v; try discriminate. intros [= <-]. eauto. Qed.

Lemma truthy_str s : truthy (JStr s) = true <-> s <> "".
Proof.
  simpl. destruct (String.eqb_spec s ""); simpl; split; congruence.
Qed.

(** C1, amended. The matcher accepts a record only when the record
    carries a (truthy) candidate, and then only when either
    [candidate.website] is a non-empty string whose normalization equals
    [normalizeUrl] of the requested website, or [candidate.company] and
    the requested name are strings, the requested name is non-empty and
    the lower-cased requested name occurs inside the lower-cased
    company. *)
Theorem is_match_only_when company r :
  is_match company r = Ok true ->
  exists cand,
    get_prop r "candidate" = Ok cand /\ truthy cand = true /\
    ((exists w cw,
         get_prop cand "website" = Ok (JStr w) /\ w <> "" /\
         get_prop company "website" = Ok cw /\
         normalizeUrl cw = Ok (Spec.normalize w))
     \/
     (exists c n pre post,
         get_prop cand "company" = Ok (JStr c) /\
         get_prop company "name" = Ok (JStr n) /\ n <> "" /\
         lower c = pre +:+ lower n +:+ post)).
Proof.
  unfold is_match. intros H.
  bind_inv H. rename a into cand. exists cand. split; [done|].
  destruct (truthy cand) eqn:Hc; simpl in H; [|discriminate]. split; [done|].
  bind_inv H. rename a into website.
  bind_inv H. rename a into exact. destruct exact.
  - left. destruct (truthy website) eqn:Hw; [|discriminate].
    bind_inv E1. bind_inv E1. bind_inv E1. injection E1 as Heq.
    apply String.eqb_eq in Heq. subst a1.
    destruct (normalizeUrl_truthy _ _ Hw E2) as (w & -> & Hne & ->).
    eauto 10.
  - right. bind_inv H. rename a into ccompany.
    destruct (truthy ccompany) eqn:Hcc; simpl in H; [|discriminate].
    bind_inv H. rename a into name.
    destruct (truthy name) eqn:Hn; simpl in H; [|discriminate].
    bind_inv H. bind_inv H. injection H as H.
    apply toLowerCase_ok in E4 as (c & -> & ->).
    apply toLowerCase_ok in E5 as (n & -> & ->).
    apply truthy_str in Hn.
    apply includes_spec in H as (pre & post & Hsub). eauto 12.
Qed.

End MatcherFacts.

Section TypedRecords.

Lemma record_candidate status w c :
  get_prop (mk_record status w c) "candidate" = Ok (mk_candidate w c).
Proof. reflexivity. Qed.

Lemma record_status status w c :
  get_prop (mk_record status w c) "status" = Ok (JStr status).
Proof. reflexivity. Qed.

Lemma candidate_website w c :
  get_prop (mk_candidate w c) "website" = Ok (JStr w).
Proof. reflexivity. Qed.

Lemma candidate_company w c :
  get_prop (mk_candidate w c) "company" = Ok (JStr c).
Proof. reflexivity. Qed.

Lemma company_website name w :
  get_prop (mk_company name w) "website" = Ok (JStr w).
Proof. reflexivity. Qed.

Lemma company_name name w :
  get_prop (mk_company name w) "name" = Ok (JStr name).
Proof. reflexivity. Qed.

(** X23. On well-typed payloads (a query with string name and website,
    a record whose candidate has string website and company) the matcher
    never faults and accepts exactly when the candidate's website is
    non-empty and normalizes like the requested one, or the candidate's
    company and the requested name are non-empty and the lower-cased
    company contains the lower-cased name; the record's [status] does not
    occur in the decision. *)
Lemma is_match_typed name reqW status w c :
  is_match (mk_company name reqW) (mk_record status w c)
  = Ok ((negb (String.eqb w "")
         && String.eqb (Spec.normalize w) (Spec.normalize reqW))
        || (negb (String.eqb c "") && negb (String.eqb name "")
            && includes (lower c) (lower name))).
Proof.
  assert (forall s, s <> "" -> truthy (JStr s) = true) as Hstr
    by (intros; by apply truthy_str).
  unfold is_match.
  rewrite record_candidate. run_binds.
  change (truthy (mk_candidate w c)) with true.
  cbn [negb]. rewrite candidate_website. run_binds.
  rewrite candidate_company, company_name, company_website.
  destruct (String.eqb_spec w "") as [->|Hw].
  - change (truthy (JStr "")) with false. run_binds.
    cbn [negb andb orb].
    destruct (String.eqb_spec c "") as [->|Hc]; [done|].
    rewrite (Hstr c Hc). cbn [negb andb].
    destruct (String.eqb_spec name "") as [->|Hn]; [done|].
    by rewrite (Hstr name Hn).
  - rewrite (Hstr w Hw), normalizeUrl_string. run_binds.
    rewrite normalizeUrl_string. run_binds.
    cbn [negb andb].
    destruct (String.eqb (Spec.normalize w) (Spec.normalize reqW)); [done|].
    cbn [orb]. run_binds.
    destruct (String.eqb_spec c "") as [->|Hc]; [done|].
    rewrite (Hstr c Hc). cbn [negb andb].
    destruct (String.eqb_spec name "") as [->|Hn]; [done|].
    by rewrite (Hstr name Hn).
Qed.

End TypedRecords.

Section FindFacts.

Context (pred : jsval -> result bool).

Lemma find_first pre r post :
  Forall (fun x => pred x = Ok false) pre -> pred r = Ok true ->
  JS.find pred (pre ++ r :: post) = Ok (Some r).
Proof.
  intros Hpre Hr. induction Hpre as [|x pre Hx _ IH]; simpl.
  - by rewrite Hr.
  - by rewrite Hx.
Qed.

Lemma find_none l :
  Forall (fun x => pred x = Ok false) l -> JS.find pred l = Ok None.
Proof.
  intros H. induction H as [|x l Hx _ IH]; simpl; [done|]. by rewrite Hx.
Qed.

Lemma find_Some_inv l r :
  JS.find pred l = Ok (Some r) ->
  exists pre post,
    l = pre ++ r :: post /\
    Forall (fun x => pred x = Ok false) pre /\ pred r = Ok true.
Proof.
  induction l as [|x l IH]; simpl; [discriminate|].
  destruct (pred x) as [[|]|] eqn:Hx; simpl; [| |discriminate].
  - intros [= <-]. exists [], l. auto.
  - intros (pre & post & -> & Hpre & Hr)%IH.
    exists (x :: pre), post. auto.
Qed.

Lemma find_None_inv l :
  JS.find pred l = Ok None -> Forall (fun x => pred x = Ok false) l.
Proof.
  induction l as [|x l IH]; simpl; [constructor|].
  destruct (pred x) as [[|]|] eqn:Hx; simpl; [discriminate| |discriminate].
  intros H. constructor; auto.
Qed.

End FindFacts.

(** C1, as the specification states it, fails on the code in two ways:
    a record whose status is [failed] is accepted when it carries a
    candidate, and an exact match is declared although both normalized
    websites are empty (the guard tests the raw [candidate.website]). *)
Lemma is_match_beyond_spec_rule :
  (is_match (mk_company "Acme" "http://www.acme.com/")
            (mk_record "failed" "acme.com" "") = Ok true /\
   Spec.record_matches "failed" "acme.com" "" "Acme" "http://www.acme.com/"
   = false) /\
  (is_match (mk_company "" "") (mk_record "success" "/" "") = Ok true /\
   normalizeUrl (JStr "/") = Ok "" /\
   Spec.record_matches "success" "/" "" "" "" = false).
Proof. repeat split; reflexivity. Qed.

Lemma is_match_only_when_witness :
  is_match (mk_company "Acme" "http://www.acme.com/")
           (mk_record "success" "acme.com" "") = Ok true /\
  exists cand,
    get_prop (mk_record "success" "acme.com" "") "candidate" = Ok cand /\
    truthy cand = true /\
    ((exists w cw,
         get_prop cand "website" = Ok (JStr w) /\ w <> "" /\
         get_prop (mk_company "Acme" "http://www.acme.com/") "website" = Ok cw /\
         normalizeUrl cw = Ok (Spec.normalize w))
     \/
     (exists c n pre post,
         get_prop cand "company" = Ok (JStr c) /\
         get_prop (mk_company "Acme" "http://www.acme.com/") "name" = Ok (JStr n) /\
         n <> "" /\ lower c = pre +:+ lower n +:+ post)).
Proof.
  split; [reflexivity|]. apply is_match_only_when. reflexivity.
Defined.

(** C6. [findMatch] returns the first record, in snapshot order, that
    the matcher accepts, whichever of the two rules accepts it, and none
    when it accepts no record: a record accepted after rejected ones is
    the result; with every record rejected the result is none; and
    conversely.  In particular an earlier name-substring match wins over
    a later exact-URL match. *)
Theorem findMatch_first_in_arrival_order (company : jsval) :
  (forall pre r post,
      Forall (fun x => is_match company x = Ok false) pre ->
      is_match company r = Ok true ->
      findMatch company (JArr (pre ++ r :: post)) = Ok (Some r)) /\
  (forall l,
      Forall (fun x => is_match company x = Ok false) l ->
      findMatch company (JArr l) = Ok None) /\
  (forall l r,
      findMatch company (JArr l) = Ok (Some r) ->
      exists pre post,
        l = pre ++ r :: post /\
        Forall (fun x => is_match company x = Ok false) pre /\
        is_match company r = Ok true) /\
  (forall l,
      findMatch company (JArr l) = Ok None ->
      Forall (fun x => is_match company x = Ok false) l) /\
  findMatch (mk_company "Acme" "http://www.acme.com/")
    (JArr [mk_record "success" "other.org" "Acme Corp";
           mk_record "success" "acme.com" "Acme"])
  = Ok (Some (mk_record "success" "other.org" "Acme Corp")).
Proof.
  unfold findMatch. simpl as_array. repeat split.
  - intros. by apply find_first.
  - intros. by apply find_none.
  - intros l r H. by apply find_Some_inv.
  - intros l H. by apply find_None_inv.
Qed.

Lemma findMatch_first_in_arrival_order_witness :
  let q := mk_company "Acme" "http://www.acme.com/" in
  let r0 := mk_record "failed" "zeta.io" "Zeta" in
  let r1 := mk_record "success" "other.org" "Acme Corp" in
  let r2 := mk_record "success" "acme.com" "Acme" in
  Forall (fun x => is_match q x = Ok false) [r0] /\
  is_match q r1 = Ok true /\
  findMatch q (JArr ([r0] ++ r1 :: [r2])) = Ok (Some r1).
Proof.
  intros q r0 r1 r2.
  assert (Forall (fun x => is_match q x = Ok false) [r0]) as H0
    by (constructor; [reflexivity|constructor]).
  assert (is_match q r1 = Ok true) as H1 by reflexivity.
  split; [exact H0|]. split; [exact H1|].
  exact (proj1 (findMatch_first_in_arrival_order q) [r0] r1 [r2] H0 H1).
Defined.

(** C9. The matcher's answer is a function of the query and the
    snapshot alone: two polls that observe the same snapshot for the same
    query, whatever their timing, yield the same match and the same
    resolved value, none included. *)
Theorem matcher_deterministic (q1 q2 snap1 snap2 : jsval) (t1 t2 : Tick) :
  q1 = q2 -> snap1 = snap2 ->
  response t1 = Ok snap1 -> response t2 = Ok snap2 ->
  findMatch q1 snap1 = findMatch q2 snap2 /\
  poll_once q1 t1 = poll_once q2 t2.
Proof.
  intros -> -> H1 H2. split; [done|]. unfold poll_once. by rewrite H1, H2.
Qed.

Lemma matcher_deterministic_witness :
  let q := mk_company "Acme" "http://www.acme.com/" in
  let snap := JArr [mk_record "success" "acme.com" "Acme"] in
  let t1 := {| fetch_ms := 3; response := Ok snap; timer_extra_ms := 0 |} in
  let t2 := {| fetch_ms := 250; response := Ok snap; timer_extra_ms := 40 |} in
  findMatch q snap = findMatch q snap /\ poll_once q t1 = poll_once q t2.
Proof.
  intros q snap t1 t2.
  exact (matcher_deterministic q q snap snap t1 t2
           eq_refl eq_refl eq_refl eq_refl).
Defined.

(* ===================================================================== *)
(** * The correlation waiter                                              *)
(* ===================================================================== *)

Section WaiterFacts.

Lemma js_or_default_truthy v d : truthy d = true -> truthy (js_or v d) = true.
Proof. unfold js_or. intros Hd. by destruct (truthy v) eqn:E. Qed.

Lemma build_ceo_populated candidate ceo :
  build_ceo candidate = Ok ceo -> populated ceo.
Proof.
  unfold build_ceo. intros H.
  bind_inv H. bind_inv H. bind_inv H. bind_inv H. bind_inv H.
  injection H as <-.
  eexists _, _, _, _. split; [reflexivity|].
  repeat split; by apply js_or_default_truthy.
Qed.

Lemma poll_once_populated company t ceo :
  poll_once company t = Ok (Some ceo) -> populated ceo.
Proof.
  unfold poll_once. intros H. bind_inv H. bind_inv H.
  destruct a0 as [r|]; [|discriminate].
  bind_inv H. destruct (truthy a0); [|discriminate].
  bind_inv H. injection H as <-. eauto using build_ceo_populated.
Qed.

(** Whatever the loop leaves in [ceo]: a fault, [null], or a populated
    object. *)
Lemma poll_loop_shape fuel company tk k elapsed r :
  poll_loop fuel company tk k elapsed = Some r ->
  (exists e, r = Throw e) \/ r = Ok JNull \/
  (exists ceo, r = Ok ceo /\ populated ceo).
Proof.
  revert k elapsed. induction fuel as [|fuel IH]; intros k elapsed; simpl;
    [discriminate|].
  destruct (elapsed <? TIMEOUT_MS)%Z; [|intros [= <-]; auto].
  destruct (poll_once company (tk k)) as [[ceo|]|e] eqn:E.
  - intros [= <-]. right; right. eauto using poll_once_populated.
  - apply IH.
  - intros [= <-]. eauto.
Qed.

(** The loop ends: every pass adds at least the poll interval to the
    elapsed time, so [fuel] loop tests suffice as soon as
    [fuel - 1] intervals cover what is left of the budget. *)
Lemma poll_loop_terminates fuel company tk k elapsed :
  (TIMEOUT_MS - elapsed <= POLL_INTERVAL_MS * (Z.of_nat fuel - 1))%Z ->
  (1 <= fuel)%nat ->
  is_Some (poll_loop fuel company tk k elapsed).
Proof.
  revert k elapsed. induction fuel as [|fuel IH]; intros k elapsed Hb Hf; [lia|].
  simpl. destruct (Z.ltb_spec elapsed TIMEOUT_MS) as [Hlt|Hge]; [|eauto].
  destruct (poll_once company (tk k)) as [[ceo|]|e]; [eauto| |eauto].
  unfold POLL_INTERVAL_MS, TIMEOUT_MS in *.
  apply IH; lia.
Qed.

(** With no poll finding a match (and none faulting) [ceo] stays
    [null]. *)
Lemma poll_loop_no_match fuel company tk k elapsed :
  (forall i, poll_once company (tk i) = Ok None) ->
  (TIMEOUT_MS - elapsed <= POLL_INTERVAL_MS * (Z.of_nat fuel - 1))%Z ->
  (1 <= fuel)%nat ->
  poll_loop fuel company tk k elapsed = Some (Ok JNull).
Proof.
  intros Hnone.
  revert k elapsed. induction fuel as [|fuel IH]; intros k elapsed Hb Hf; [lia|].
  simpl. destruct (Z.ltb_spec elapsed TIMEOUT_MS) as [Hlt|Hge]; [|done].
  rewrite Hnone. unfold POLL_INTERVAL_MS, TIMEOUT_MS in *.
  apply IH; lia.
Qed.

Lemma enough_fuel_covers fuel :
  (ENOUGH_FUEL <= fuel)%nat ->
  (TIMEOUT_MS - 0 <= POLL_INTERVAL_MS * (Z.of_nat fuel - 1))%Z /\ (1 <= fuel)%nat.
Proof. unfold ENOUGH_FUEL, TIMEOUT_MS, POLL_INTERVAL_MS. lia. Qed.

Lemma populated_truthy ceo : populated ceo -> truthy ceo = true.
Proof. by intros (? & ? & ? & ? & -> & _). Qed.

(** The three ways [enrichWithSignalHire] returns. *)
Lemma enrich_shape fuel env company :
  (ENOUGH_FUEL <= fuel)%nat ->
  exists ceo lg,
    enrichWithSignalHire fuel env company
    = Some {| value := with_ceo company ceo; logged := lg |} /\
    ((ceo = ERROR_CEO /\ exists e, lg = [e]) \/
     (ceo = NOT_FOUND /\ lg = []) \/
     (populated ceo /\ lg = [])).
Proof.
  intros [Hb Hf]%enough_fuel_covers.
  unfold enrichWithSignalHire, enrich_try.
  destruct (get_prop company "website") as [w|e]; [|eauto 10].
  destruct (dispatch env w) as [[]|e]; [|eauto 10].
  destruct (poll_loop_terminates fuel company (ticks env) 0 0 Hb Hf) as [r Hr].
  rewrite Hr.
  destruct (poll_loop_shape _ _ _ _ _ _ Hr) as [[e ->]|[->|(ceo & -> & Hp)]].
  - eauto 10.
  - simpl. eauto 10.
  - rewrite (populated_truthy _ Hp). simpl. eauto 10.
Qed.

Lemma ceo_object_title n t e p :
  get_prop (ceo_object n t e p) "title" = Ok t.
Proof. reflexivity. Qed.

Lemma populated_not_sentinel ceo :
  populated ceo -> ceo <> NOT_FOUND /\ ceo <> ERROR_CEO.
Proof.
  intros (n & t & e & p & -> & _ & Ht & _).
  split; intros H; apply (f_equal (fun v => get_prop v "title")) in H;
    rewrite ceo_object_title in H; injection H as ->; discriminate.
Qed.

End WaiterFacts.

(** C3. With the loop given its eleven tests, [enrichWithSignalHire]
    returns (it neither throws nor runs on), and the [ceo] it attaches is
    the error sentinel (a fault was caught and logged), the not-found
    sentinel, or a populated object.  When the dispatch goes through and
    every poll answers with a snapshot in which the matcher finds nothing,
    the result carries the not-found sentinel
    [{name:"Not found", title:"", email:"", phone:""}].  The two
    sentinels differ, and a populated object is neither of them. *)
Theorem enrich_returns_candidate_or_sentinel
  (fuel : nat) (env : Env) (company : jsval) :
  (ENOUGH_FUEL <= fuel)%nat ->
  (exists ceo lg,
      enrichWithSignalHire fuel env company
      = Some {| value := with_ceo company ceo; logged := lg |} /\
      ((ceo = ERROR_CEO /\ exists e, lg = [e]) \/
       (ceo = NOT_FOUND /\ lg = []) \/
       (populated ceo /\ lg = []))) /\
  ((exists w, get_prop company "website" = Ok w /\ dispatch env w = Ok ()) ->
   (forall i, exists snapshot,
       response (ticks env i) = Ok snapshot /\
       findMatch company snapshot = Ok None) ->
   enrichWithSignalHire fuel env company
   = Some {| value := with_ceo company NOT_FOUND; logged := [] |}) /\
  (get_prop NOT_FOUND "name" = Ok (JStr "Not found") /\
   get_prop NOT_FOUND "title" = Ok (JStr "") /\
   get_prop NOT_FOUND "email" = Ok (JStr "") /\
   get_prop NOT_FOUND "phone" = Ok (JStr "")) /\
  NOT_FOUND <> ERROR_CEO /\
  (forall ceo, populated ceo -> ceo <> NOT_FOUND /\ ceo <> ERROR_CEO).
Proof.
  intros Hfuel. split; [by apply enrich_shape|]. split; [|split; [|split]].
  - intros (w & Hw & Hd) Hpolls.
    apply enough_fuel_covers in Hfuel as [Hb Hf].
    unfold enrichWithSignalHire, enrich_try. rewrite Hw, Hd.
    rewrite poll_loop_no_match; [done| |done|done].
    intros i. destruct (Hpolls i) as (snap & Hs & Hm).
    unfold poll_once. rewrite Hs. run_binds. by rewrite Hm.
  - repeat split; reflexivity.
  - intros H. apply (f_equal (fun v => get_prop v "name")) in H. discriminate H.
  - apply populated_not_sentinel.
Qed.

Lemma enrich_returns_candidate_or_sentinel_witness :
  let company := mk_company "Acme" "http://www.acme.com/" in
  let env := {| dispatch := fun _ => Ok ();
                ticks := fun _ => {| fetch_ms := 20;
                                     response := Ok (JArr [mk_record "success" "zeta.io" "Zeta"]);
                                     timer_extra_ms := 3 |} |} in
  (ENOUGH_FUEL <= 11)%nat /\
  enrichWithSignalHire 11 env company
  = Some {| value := with_ceo company NOT_FOUND; logged := [] |}.
Proof.
  intros company env. split; [unfold ENOUGH_FUEL; lia|].
  refine (proj1 (proj2 (enrich_returns_candidate_or_sentinel 11 env company _)) _ _).
  - unfold ENOUGH_FUEL; lia.
  - exists (JStr "http://www.acme.com/"). split; reflexivity.
  - intros i. exists (JArr [mk_record "success" "zeta.io" "Zeta"]).
    split; reflexivity.
Defined.

(* ===================================================================== *)
(** * De-duplication of the search results                                *)
(* ===================================================================== *)

Section DedupeFacts.

Lemma dedupe_cons seen c rest n :
  website_key c = Ok n ->
  dedupe seen (c :: rest)
  = if String.eqb n "" || bool_decide (n ∈ seen) then dedupe seen rest
    else kept ← dedupe ({[n]} ∪ seen) rest; Ok (c :: kept).
Proof.
  unfold website_key. simpl. intros H.
  destruct (get_prop c "website") as [w|e]; [|discriminate].
  run_binds. rewrite bind_ok in H. cbn beta in H. rewrite H. by run_binds.
Qed.

Lemma dedupe_throw seen c rest e :
  website_key c = Throw e -> dedupe seen (c :: rest) = Throw e.
Proof.
  unfold website_key. simpl. intros H.
  destruct (get_prop c "website") as [w|e']; [|by injection H as ->].
  run_binds. rewrite bind_ok in H. cbn beta in H. by rewrite H.
Qed.

Lemma key_of_ok c n : website_key c = Ok n -> key_of c = n.
Proof. unfold key_of. by intros ->. Qed.

(** A run of [dedupe] that does not throw has normalized every
    website it met. *)
Lemma dedupe_ok_keys seen l u :
  dedupe seen l = Ok u -> Forall (fun c => exists n, website_key c = Ok n) l.
Proof.
  revert seen u. induction l as [|c rest IH]; intros seen u H; [constructor|].
  destruct (website_key c) as [n|e] eqn:Hk.
  - rewrite (dedupe_cons _ _ _ _ Hk) in H. constructor; [eauto|].
    destruct (String.eqb n "" || bool_decide (n ∈ seen)); [eauto|].
    bind_inv H. eauto.
  - by rewrite (dedupe_throw _ _ _ _ Hk) in H.
Qed.

Lemma dedupe_props seen l :
  Forall (fun c => exists n, website_key c = Ok n) l ->
  exists u,
    dedupe seen l = Ok u /\
    u `sublist_of` l /\
    NoDup (key_of <$> u) /\
    (forall c, c ∈ u -> key_of c <> "" /\ key_of c ∉ seen) /\
    (forall pre c post,
        l = pre ++ c :: post ->
        key_of c <> "" -> key_of c ∉ seen -> key_of c ∉ (key_of <$> pre) ->
        c ∈ u).
Proof.
  intros Hl. revert seen. induction Hl as [|c rest [n Hn] _ IH]; intros seen.
  - exists []. split; [done|]. split; [constructor|]. split; [constructor|].
    split.
    + intros c Hc. by apply elem_of_nil in Hc.
    + intros pre c post H. by destruct pre.
  - rewrite (dedupe_cons _ _ _ _ Hn). pose proof (key_of_ok _ _ Hn) as Hkey.
    assert (String.eqb n "" || bool_decide (n ∈ seen) = true
            \/ (n <> "" /\ n ∉ seen)) as [Hdrop|[Hne Hfresh]].
    { destruct (String.eqb_spec n ""); [by left|].
      destruct (decide (n ∈ seen)).
      - left. by rewrite bool_decide_eq_true_2, orb_true_r.
      - by right. }
    + (* dropped: an empty key or a key already seen *)
      rewrite Hdrop.
      destruct (IH seen) as (u & Hu & Hsub & Hnd & Hin & Hfirst).
      exists u. split; [done|]. split; [by apply sublist_cons|].
      split; [done|]. split; [done|].
      intros pre c' post Heq Hk1 Hk2 Hk3. destruct pre as [|x pre].
      * simpl in Heq. injection Heq as <- <-. rewrite Hkey in Hk1, Hk2.
        apply orb_true_iff in Hdrop as [He|Hs].
        -- by apply String.eqb_eq in He.
        -- by apply bool_decide_eq_true in Hs.
      * simpl in Heq. injection Heq as <- ->.
        apply (Hfirst pre c' post); [done..|].
        rewrite fmap_cons in Hk3. by apply not_elem_of_cons in Hk3 as [_ ?].
    + (* kept: the first occurrence of a non-empty key *)
      replace (String.eqb n "" || bool_decide (n ∈ seen)) with false.
      2:{ symmetry. apply orb_false_iff. split.
          - by apply String.eqb_neq.
          - by apply bool_decide_eq_false_2. }
      destruct (IH ({[n]} ∪ seen)) as (u & Hu & Hsub & Hnd & Hin & Hfirst).
      rewrite Hu. exists (c :: u). split; [done|].
      split; [by apply sublist_skip|]. split; [|split].
      * rewrite fmap_cons. apply NoDup_cons. split; [|done].
        intros (c' & Hc' & Hu')%list_elem_of_fmap.
        destruct (Hin c' Hu') as [_ Hnot]. apply Hnot.
        apply elem_of_union. left. apply elem_of_singleton. congruence.
      * intros c' [->|Hc']%elem_of_cons.
        -- by rewrite Hkey.
        -- destruct (Hin c' Hc') as [? Hnot]. split; [done|].
           intros ?. apply Hnot, elem_of_union. by right.
      * intros pre c' post Heq Hk1 Hk2 Hk3. destruct pre as [|x pre].
        -- simpl in Heq. injection Heq as <- <-. apply elem_of_cons. by left.
        -- simpl in Heq. injection Heq as <- ->.
           rewrite fmap_cons in Hk3.
           apply not_elem_of_cons in Hk3 as [Hk3 Hk4].
           apply elem_of_cons. right.
           apply (Hfirst pre c' post); [done|done| |done].
           intros [Heq%elem_of_singleton|?]%elem_of_union; [|done].
           congruence.
Qed.

Lemma map_result_length f l u :
  map_result f l = Ok u -> length u = length l.
Proof.
  revert u. induction l as [|x l IH]; intros u; simpl.
  - by intros [= <-].
  - intros H. bind_inv H. bind_inv H. injection H as <-. simpl. f_equal. eauto.
Qed.

(** [slice(0, 3)]: at most three results reach the de-duplication. *)
Lemma top_results_length serpData results :
  top_results serpData = Ok results -> length results <= 3.
Proof.
  unfold top_results. intros H. bind_inv H. bind_inv H. bind_inv H.
  apply map_result_length in H. rewrite H, length_take. lia.
Qed.

Lemma to_company_fields r c :
  to_company r = Ok c ->
  exists title link,
    c = JObj (<["name" := title]> (<["website" := link]> ∅)).
Proof.
  unfold to_company. intros H. bind_inv H. bind_inv H. injection H as <-. eauto.
Qed.

Lemma map_result_elem f l u c :
  map_result f l = Ok u -> c ∈ u -> exists r, f r = Ok c.
Proof.
  revert u. induction l as [|x l IH]; intros u; simpl.
  - intros [= <-] Hc. by apply elem_of_nil in Hc.
  - intros H. bind_inv H. bind_inv H. injection H as <-.
    intros [->|Hc]%elem_of_cons; eauto.
Qed.

(** The records [searchISVs] hands to the enrichment have the two
    properties [name] and [website] and no other. *)
Lemma searchISVs_companies env query u c :
  searchISVs env query = Ok u -> c ∈ u ->
  exists title link,
    c = JObj (<["name" := title]> (<["website" := link]> ∅)).
Proof.
  unfold searchISVs.
  destruct (truthy (SERPAPI_KEY env)); simpl; [|discriminate].
  intros H Hc. bind_inv H. destruct (fst a); simpl in H; [|discriminate].
  bind_inv H. bind_inv H. rename a1 into results.
  pose proof (dedupe_ok_keys _ _ _ H) as Htyped.
  destruct (dedupe_props ∅ results Htyped) as (u' & Hu & Hsub & _).
  rewrite Hu in H. injection H as ->.
  assert (c ∈ results) as Hin by (by eapply elem_of_sublist).
  unfold top_results in E1. bind_inv E1. bind_inv E1. bind_inv E1.
  destruct (map_result_elem _ _ _ _ E1 Hin) as [r Hr].
  by apply to_company_fields in Hr.
Qed.

End DedupeFacts.

(** C7. De-duplication visits the results left to right and, when every
    website can be normalized, returns a list that is a subsequence of the
    input (kept items stay in input order), has pairwise distinct
    normalized-website keys, contains no item whose key is empty, and
    contains every item that is the first in the input with its non-empty
    key; later items with that key and items with an empty key are
    dropped.  What [searchISVs] returns has at most three entries, with
    distinct, non-empty keys. *)
Theorem dedupe_first_occurrences :
  (forall results : list jsval,
      Forall (fun c => exists n, website_key c = Ok n) results ->
      exists u,
        dedupe ∅ results = Ok u /\
        u `sublist_of` results /\
        NoDup (key_of <$> u) /\
        (forall c, c ∈ u -> key_of c <> "") /\
        (forall pre c post,
            results = pre ++ c :: post ->
            key_of c <> "" -> key_of c ∉ (key_of <$> pre) -> c ∈ u) /\
        length u <= length results) /\
  (forall (env : SerpEnv) (query : string) (u : list jsval),
      searchISVs env query = Ok u ->
      length u <= 3 /\ NoDup (key_of <$> u) /\
      (forall c, c ∈ u -> key_of c <> "")).
Proof.
  split.
  - intros results Hres.
    destruct (dedupe_props ∅ results Hres) as (u & Hu & Hsub & Hnd & Hin & Hfirst).
    exists u. split; [done|]. split; [done|]. split; [done|]. split; [|split].
    + intros c Hc. by apply Hin.
    + intros pre c post Heq Hk1 Hk2.
      apply (Hfirst pre c post); done || apply not_elem_of_empty.
    + by apply sublist_length.
  - intros env query u. unfold searchISVs.
    destruct (truthy (SERPAPI_KEY env)); simpl; [|discriminate].
    intros H. bind_inv H. destruct (fst a); simpl in H; [|discriminate].
    bind_inv H. bind_inv H. rename a1 into results.
    pose proof (top_results_length _ _ E1) as Hlen.
    pose proof (dedupe_ok_keys _ _ _ H) as Htyped.
    destruct (dedupe_props ∅ results Htyped) as (u' & Hu & Hsub & Hnd & Hin & _).
    rewrite Hu in H. injection H as ->.
    split; [|split; [done|]].
    + apply sublist_length in Hsub. lia.
    + intros c Hc. by apply Hin.
Qed.

Lemma dedupe_first_occurrences_witness :
  let A := mk_company "Acme" "https://www.acme.com/" in
  let B := mk_company "Bolt" "http://bolt.io" in
  let A' := mk_company "Acme Inc" "acme.com" in
  Forall (fun c => exists n, website_key c = Ok n) [A; B; A'] /\
  exists u,
    dedupe ∅ [A; B; A'] = Ok u /\
    u `sublist_of` [A; B; A'] /\
    NoDup (key_of <$> u) /\
    (forall c, c ∈ u -> key_of c <> "") /\
    (forall pre c post,
        [A; B; A'] = pre ++ c :: post ->
        key_of c <> "" -> key_of c ∉ (key_of <$> pre) -> c ∈ u) /\
    length u <= length [A; B; A'].
Proof.
  intros A B A'.
  assert (Forall (fun c => exists n, website_key c = Ok n) [A; B; A']) as H.
  { repeat constructor.
    - exists "acme.com". reflexivity.
    - exists "bolt.io". reflexivity.
    - exists "acme.com". reflexivity. }
  split; [exact H|].
  exact (proj1 dedupe_first_occurrences [A; B; A'] H).
Defined.

(** C10. The object [enrichWithSignalHire] returns is the input company
    with [ceo] set: [ceo] is present and every other property reads as in
    the input.  For an input without a [ceo] property, and so for every
    record [searchISVs] produces, the input's properties are all present
    and unchanged and [ceo] is the only addition.  This holds on each way
    out: a resolved candidate, the not-found sentinel after the time-out,
    the error sentinel after a caught fault. *)
Theorem enrich_frame (fuel : nat) (env : Env) (company : jsval) :
  (ENOUGH_FUEL <= fuel)%nat ->
  exists (ceo : jsval) (lg : list exn) (fields : gmap string jsval),
    enrichWithSignalHire fuel env company
    = Some {| value := JObj fields; logged := lg |} /\
    ((ceo = ERROR_CEO /\ exists e, lg = [e]) \/
     (ceo = NOT_FOUND /\ lg = []) \/
     (populated ceo /\ lg = [])) /\
    fields !! "ceo" = Some ceo /\
    (forall k : string, k <> "ceo" -> fields !! k = own_props company !! k) /\
    (own_props company !! "ceo" = None ->
     own_props company ⊆ fields /\
     dom fields = {["ceo"]} ∪ dom (own_props company)) /\
    (forall (senv : SerpEnv) (query : string) (u : list jsval),
        searchISVs senv query = Ok u -> company ∈ u ->
        own_props company ⊆ fields /\
        dom fields = {["ceo"]} ∪ dom (own_props company)).
Proof.
  intros Hfuel.
  destruct (enrich_shape fuel env company Hfuel) as (ceo & lg & Heq & Hcases).
  exists ceo, lg, (<["ceo" := ceo]> (own_props company)).
  assert (own_props company !! "ceo" = None ->
          own_props company ⊆ <["ceo" := ceo]> (own_props company) /\
          dom (<["ceo" := ceo]> (own_props company))
          = {["ceo"]} ∪ dom (own_props company)) as Hfresh.
  { intros Hnone. split; [by apply insert_subseteq|apply dom_insert_L]. }
  split; [exact Heq|]. split; [exact Hcases|]. split; [|split; [|split]].
  - apply lookup_insert_eq.
  - intros k Hk. by apply lookup_insert_ne.
  - exact Hfresh.
  - intros senv query u Hu Hc. apply Hfresh.
    destruct (searchISVs_companies _ _ _ _ Hu Hc) as (title & link & ->).
    reflexivity.
Qed.

Lemma enrich_frame_witness :
  let company := mk_company "Acme" "http://www.acme.com/" in
  let env := {| dispatch := fun _ => Throw NetworkError;
                ticks := fun _ => {| fetch_ms := 0; response := Ok (JArr []);
                                     timer_extra_ms := 0 |} |} in
  (ENOUGH_FUEL <= 11)%nat /\
  exists (ceo : jsval) (lg : list exn) (fields : gmap string jsval),
    enrichWithSignalHire 11 env company
    = Some {| value := JObj fields; logged := lg |} /\
    ((ceo = ERROR_CEO /\ exists e, lg = [e]) \/
     (ceo = NOT_FOUND /\ lg = []) \/
     (populated ceo /\ lg = [])) /\
    fields !! "ceo" = Some ceo /\
    (forall k : string, k <> "ceo" -> fields !! k = own_props company !! k) /\
    (own_props company !! "ceo" = None ->
     own_props company ⊆ fields /\
     dom fields = {["ceo"]} ∪ dom (own_props company)) /\
    (forall (senv : SerpEnv) (query : string) (u : list jsval),
        searchISVs senv query = Ok u -> company ∈ u ->
        own_props company ⊆ fields /\
        dom fields = {["ceo"]} ∪ dom (own_props company)).
Proof.
  intros company env.
  assert (ENOUGH_FUEL <= 11)%nat as H by (unfold ENOUGH_FUEL; lia).
  split; [exact H|]. exact (enrich_frame 11 env company H).
Defined.

(* ===================================================================== *)
(** * The callback sink                                                   *)
(* ===================================================================== *)

Section SinkFacts.

Import CallbackRoute.

(** The sink only grows: what was stored stays, in place. *)
Lemma POST_append_only st req :
  responses st `prefix_of` responses (fst (POST st req)).
Proof.
  unfold POST. destruct (body req) as [data|e]; simpl; [|done].
  destruct (write_ok req); simpl; by apply prefix_app_r.
Qed.

(** One stored entry per request with a JSON body, whatever the shape
    of the body. *)
Lemma POST_pushes_body st req data :
  body req = Ok data ->
  responses (fst (POST st req)) = responses st ++ [data].
Proof. unfold POST. intros ->. by destruct (write_ok req). Qed.

Lemma POST_malformed st req e :
  body req = Throw e ->
  responses (fst (POST st req)) = responses st /\
  status (snd (POST st req)) = 500%Z.
Proof. unfold POST. by intros ->. Qed.

Lemma ingest_all_length st reqs :
  Forall (fun r => exists data, body r = Ok data) reqs ->
  length (responses (ingest_all st reqs))
  = length (responses st) + length reqs.
Proof.
  intros H. revert st. induction H as [|r reqs [data Hr] _ IH]; intros st.
  - simpl. lia.
  - simpl. unfold ingest_all in IH. rewrite IH.
    rewrite (POST_pushes_body _ _ _ Hr), length_app. simpl. lia.
Qed.

End SinkFacts.

(** C8, as the specification states it, fails: with a JSON body and a
    failing backup write the handler answers 500, not 200. *)
Lemma POST_write_failure_not_200 :
  let req := {| CallbackRoute.body := Ok (mk_record "success" "acme.com" "Acme");
                CallbackRoute.now_iso := "2024-05-01T10:20:30.123Z";
                CallbackRoute.write_ok := false |} in
  CallbackRoute.status (snd (CallbackRoute.POST CallbackRoute.initial req))
  = 500%Z /\
  CallbackRoute.status (snd (CallbackRoute.POST CallbackRoute.initial req))
  <> 200%Z.
Proof. split; [reflexivity|discriminate]. Qed.

(** C8, amended. For every JSON-parseable callback body the payload is
    retained in the in-memory sink whether or not the backup write
    succeeds.  When the write succeeds the answer is 200 with
    [{status:'success'}] and the payload is in the backup file; when it
    fails the failure is logged, nothing is written, and the answer is
    500 with [{status:'error'}]. *)
Theorem POST_retains_payload
  (st : CallbackRoute.State) (req : CallbackRoute.Request) (data : jsval) :
  CallbackRoute.body req = Ok data ->
  CallbackRoute.responses (fst (CallbackRoute.POST st req))
  = CallbackRoute.responses st ++ [data] /\
  (CallbackRoute.write_ok req = true ->
   snd (CallbackRoute.POST st req)
   = {| CallbackRoute.status := 200; CallbackRoute.json := CallbackRoute.success_body |} /\
   CallbackRoute.data_dir (fst (CallbackRoute.POST st req))
     !! CallbackRoute.backup_name (CallbackRoute.now_iso req) = Some data /\
   CallbackRoute.console (fst (CallbackRoute.POST st req))
   = CallbackRoute.console st) /\
  (CallbackRoute.write_ok req = false ->
   snd (CallbackRoute.POST st req)
   = {| CallbackRoute.status := 500; CallbackRoute.json := CallbackRoute.error_body |} /\
   CallbackRoute.data_dir (fst (CallbackRoute.POST st req))
   = CallbackRoute.data_dir st /\
   CallbackRoute.console (fst (CallbackRoute.POST st req))
   = CallbackRoute.console st ++ [IOError]).
Proof.
  intros Hbody. unfold CallbackRoute.POST. rewrite Hbody.
  split; [by destruct (CallbackRoute.write_ok req)|].
  split; intros ->; simpl; split; try done.
  split; [|done]. apply lookup_insert_eq.
Qed.

Lemma POST_retains_payload_witness :
  let data := mk_record "success" "acme.com" "Acme" in
  let req := {| CallbackRoute.body := Ok data;
                CallbackRoute.now_iso := "2024-05-01T10:20:30.123Z";
                CallbackRoute.write_ok := false |} in
  CallbackRoute.body req = Ok data /\
  CallbackRoute.responses (fst (CallbackRoute.POST CallbackRoute.initial req))
  = [] ++ [data].
Proof.
  intros data req. split; [reflexivity|].
  exact (proj1 (POST_retains_payload CallbackRoute.initial req data eq_refl)).
Defined.

(** C2 on the code: an array body is stored as one entry, the array
    itself, so the snapshot has one element for the request, not one per
    result; the result object inside it is out of the matcher's reach,
    although the matcher accepts it when it is stored on its own. *)
Theorem POST_array_body_is_one_entry :
  let r1 := mk_record "success" "acme.com" "Acme" in
  let r2 := JObj (<["status" := JStr "failed"]> (<["item" := JStr "zeta.io"]> ∅)) in
  let req := {| CallbackRoute.body := Ok (JArr [r1; r2]);
                CallbackRoute.now_iso := "2024-05-01T10:20:30.123Z";
                CallbackRoute.write_ok := true |} in
  let st := fst (CallbackRoute.POST CallbackRoute.initial req) in
  let q := mk_company "Acme" "http://www.acme.com/" in
  CallbackRoute.json (CallbackRoute.GET st) = JArr [JArr [r1; r2]] /\
  length (CallbackRoute.responses st) = 1 /\
  findMatch q (CallbackRoute.json (CallbackRoute.GET st)) = Ok None /\
  findMatch q (JArr [r1; r2]) = Ok (Some r1).
Proof. repeat split; reflexivity. Qed.

(* ===================================================================== *)
(** * Runs of the model on concrete inputs                                *)
(* ===================================================================== *)

Example normalizeUrl_mixed_case :
  normalizeUrl (JStr "HTTP://WWW.Example.COM/Path/") = Ok "example.com/path".
Proof. reflexivity. Qed.

Example normalizeUrl_inner_text_kept :
  normalizeUrl (JStr "ftp.http://www.a.io/x") = Ok "ftp.http://www.a.io/x".
Proof. reflexivity. Qed.

Example normalizeUrl_only_scheme :
  normalizeUrl (JStr "https://") = Ok "".
Proof. reflexivity. Qed.

Example normalizeUrl_non_string :
  normalizeUrl (JNum 42) = Throw TypeError /\ normalizeUrl (JNum 0) = Ok "".
Proof. split; reflexivity. Qed.

Example includes_examples :
  includes "acme corp" "acme" = true /\ includes "the acme corp" "acme" = true /\
  includes "acme" "acme corp" = false /\ includes "" "" = true.
Proof. repeat split; reflexivity. Qed.

(** The end-to-end scenario of the specification: the record arrives
    before the second poll and the waiter resolves to its candidate. *)
Example enrich_resolves :
  let company := mk_company "Acme" "http://www.acme.com/" in
  let contact t v := JObj (<["type" := JStr t]> (<["value" := JStr v]> ∅)) in
  let candidate :=
    JObj (<["fullName" := JStr "Jane Roe"]> (<["headLine" := JStr "CEO"]>
         (<["website" := JStr "acme.com"]>
         (<["contacts" := JArr [contact "phone" "+1 555 0100";
                               contact "email" "jane@acme.com"]]> ∅)))) in
  let record :=
    JObj (<["status" := JStr "success"]> (<["candidate" := candidate]> ∅)) in
  let env := {| dispatch := fun _ => Ok ();
                ticks := fun i =>
                  {| fetch_ms := 30;
                     response := Ok (JArr (if (i =? 0)%nat then [] else [record]));
                     timer_extra_ms := 2 |} |} in
  enrichWithSignalHire 11 env company
  = Some {| value := with_ceo company
                       (ceo_object (JStr "Jane Roe") (JStr "CEO")
                                   (JStr "jane@acme.com") (JStr "+1 555 0100"));
            logged := [] |}.
Proof. reflexivity. Qed.

(** A poll whose answer is not an array, a [null] entry in the snapshot,
    or a [null] company: each fault is caught and turned into the error
    sentinel. *)
Example enrich_catches_faults :
  let company := mk_company "Acme" "http://www.acme.com/" in
  let env r := {| dispatch := fun _ => Ok ();
                  ticks := fun _ => {| fetch_ms := 0; response := r;
                                       timer_extra_ms := 0 |} |} in
  enrichWithSignalHire 11 (env (Ok (JObj ∅))) company
  = Some {| value := with_ceo company ERROR_CEO; logged := [TypeError] |} /\
  enrichWithSignalHire 11 (env (Ok (JArr [JNull]))) company
  = Some {| value := with_ceo company ERROR_CEO; logged := [TypeError] |} /\
  enrichWithSignalHire 11 (env (Throw SyntaxError)) company
  = Some {| value := with_ceo company ERROR_CEO; logged := [SyntaxError] |} /\
  enrichWithSignalHire 11 (env (Ok (JArr []))) JNull
  = Some {| value := JObj (<["ceo" := ERROR_CEO]> ∅); logged := [TypeError] |}.
Proof. repeat split; reflexivity. Qed.

(** Ten polls are made before the budget is used up; ten loop tests are
    therefore one too few, eleven are enough. *)
Example poll_loop_ten_polls :
  let company := mk_company "Acme" "http://www.acme.com/" in
  let tk := fun _ : nat => {| fetch_ms := 0; response := Ok (JArr []);
                              timer_extra_ms := 0 |} in
  poll_loop 10 company tk 0 0 = None /\
  poll_loop 11 company tk 0 0 = Some (Ok JNull).
Proof. split; reflexivity. Qed.

(** An input that already has a [ceo] property: the spread keeps the
    other properties and the new [ceo] replaces the old one. *)
Example enrich_overwrites_existing_ceo :
  let company :=
    JObj (<["name" := JStr "Acme"]> (<["ceo" := JStr "old"]> ∅)) in
  let env := {| dispatch := fun _ => Ok ();
                ticks := fun _ => {| fetch_ms := 0; response := Ok (JArr []);
                                     timer_extra_ms := 0 |} |} in
  exists e,
    enrichWithSignalHire 11 env company = Some e /\
    get_prop (value e) "name" = Ok (JStr "Acme") /\
    get_prop (value e) "ceo" = Ok NOT_FOUND.
Proof. eexists. repeat split; reflexivity. Qed.

(** Section 8 of the specification: [dedupe([A, B, A'])] is [[A, B]];
    a website that normalizes to the empty string is dropped. *)
Example dedupe_stability :
  let A := mk_company "Acme" "https://www.acme.com/" in
  let B := mk_company "Bolt" "http://bolt.io" in
  let A' := mk_company "Acme Inc" "acme.com" in
  let E := mk_company "Empty" "http://" in
  dedupe ∅ [A; B; A'] = Ok [A; B] /\
  dedupe ∅ [E; A'; A] = Ok [A'].
Proof. split; reflexivity. Qed.

Example searchISVs_run :
  let hit t l := JObj (<["title" := JStr t]> (<["link" := JStr l]> ∅)) in
  let serpData :=
    JObj (<["organic_results" :=
             JArr [hit "Acme" "https://www.acme.com/";
                   JObj (<["title" := JStr "no link"]> ∅);
                   hit "Acme again" "http://acme.com";
                   hit "Bolt" "https://bolt.io/";
                   hit "Zeta" "https://zeta.io/"]]> ∅) in
  let env := {| SERPAPI_KEY := JStr "key";
                serp_fetch := fun _ => Ok (true, Ok serpData) |} in
  searchISVs env "isv" =
    Ok [mk_company "Acme" "https://www.acme.com/";
        mk_company "Bolt" "https://bolt.io/"] /\
  searchISVs {| SERPAPI_KEY := JUndefined; serp_fetch := serp_fetch env |} "isv"
  = Throw (Error "SerpAPI key is missing").
Proof. split; reflexivity. Qed.

Example backup_name_example :
  CallbackRoute.backup_name "2024-05-01T10:20:30.123Z"
  = "signalhire_response_2024-05-01T10-20-30-123Z.json".
Proof. reflexivity. Qed.

Example POST_then_GET :
  let r := mk_record "success" "acme.com" "Acme" in
  let ok := {| CallbackRoute.body := Ok r;
               CallbackRoute.now_iso := "2024-05-01T10:20:30.123Z";
               CallbackRoute.write_ok := true |} in
  let bad := {| CallbackRoute.body := Throw SyntaxError;
                CallbackRoute.now_iso := "2024-05-01T10:20:31.000Z";
                CallbackRoute.write_ok := true |} in
  let st := CallbackRoute.ingest_all CallbackRoute.initial [ok; bad; ok] in
  CallbackRoute.GET st
  = {| CallbackRoute.status := 200; CallbackRoute.json := JArr [r; r] |} /\
  CallbackRoute.console st = [SyntaxError].
Proof. split; reflexivity. Qed.

(* ===================================================================== *)
(** * More on the waiter: which polls count                               *)
(* ===================================================================== *)

Section PollFacts.

Context (company : jsval) (tk : nat -> Tick).

Lemma elapsed_before_step j :
  (elapsed_before tk j + POLL_INTERVAL_MS <= elapsed_before tk (S j))%Z.
Proof. simpl. unfold POLL_INTERVAL_MS. lia. Qed.

Lemma elapsed_before_mono i j :
  (i <= j)%nat -> (elapsed_before tk i <= elapsed_before tk j)%Z.
Proof.
  induction 1 as [|j _ IH]; [lia|].
  pose proof (elapsed_before_step j). unfold POLL_INTERVAL_MS in *. lia.
Qed.

Lemma elapsed_before_lower j :
  (POLL_INTERVAL_MS * Z.of_nat j <= elapsed_before tk j)%Z.
Proof.
  induction j as [|j IH]; [simpl; unfold POLL_INTERVAL_MS; lia|].
  pose proof (elapsed_before_step j). unfold POLL_INTERVAL_MS in *. lia.
Qed.

(** From poll [k] on: the first poll that finds a match, made before the
    budget is used up, decides the loop. *)
Lemma poll_loop_first_match fuel k j ceo :
  (TIMEOUT_MS - elapsed_before tk k
   <= POLL_INTERVAL_MS * (Z.of_nat fuel - 1))%Z ->
  (1 <= fuel)%nat -> (k <= j)%nat ->
  (forall i, (k <= i < j)%nat -> poll_once company (tk i) = Ok None) ->
  poll_once company (tk j) = Ok (Some ceo) ->
  (elapsed_before tk j < TIMEOUT_MS)%Z ->
  poll_loop fuel company tk k (elapsed_before tk k) = Some (Ok ceo).
Proof.
  intros Hb Hf Hkj Hnone Hj Hlt.
  revert k Hb Hf Hkj Hnone. induction fuel as [|fuel IH]; intros k Hb Hf Hkj Hnone; [lia|].
  pose proof (elapsed_before_mono k j Hkj) as Hmono.
  simpl. destruct (Z.ltb_spec (elapsed_before tk k) TIMEOUT_MS) as [_|Hge]; [|lia].
  destruct (decide (k = j)) as [->|Hne]; [by rewrite Hj|].
  rewrite Hnone by lia.
  change (elapsed_before tk k + Z.of_N (fetch_ms (tk k)) + POLL_INTERVAL_MS
          + Z.of_N (timer_extra_ms (tk k)))%Z with (elapsed_before tk (S k)).
  assert (S k <= j)%nat as Hle by lia.
  pose proof (elapsed_before_mono (S k) j Hle).
  pose proof (elapsed_before_step k).
  unfold POLL_INTERVAL_MS, TIMEOUT_MS in *.
  apply IH; [lia|lia|lia|]. intros i Hi. apply Hnone. lia.
Qed.

(** From poll [k] on: when the budget is used up before any poll has
    found a match, [ceo] stays [null], whatever later polls would see. *)
Lemma poll_loop_budget_spent fuel k j :
  (TIMEOUT_MS - elapsed_before tk k
   <= POLL_INTERVAL_MS * (Z.of_nat fuel - 1))%Z ->
  (1 <= fuel)%nat -> (k <= j)%nat ->
  (forall i, (k <= i < j)%nat -> poll_once company (tk i) = Ok None) ->
  (TIMEOUT_MS <= elapsed_before tk j)%Z ->
  poll_loop fuel company tk k (elapsed_before tk k) = Some (Ok JNull).
Proof.
  intros Hb Hf Hkj Hnone Hge.
  revert k Hb Hf Hkj Hnone. induction fuel as [|fuel IH]; intros k Hb Hf Hkj Hnone; [lia|].
  simpl. destruct (Z.ltb_spec (elapsed_before tk k) TIMEOUT_MS) as [Hlt|_]; [|done].
  assert (k <> j) as Hne by (intros ->; lia).
  rewrite Hnone by lia.
  change (elapsed_before tk k + Z.of_N (fetch_ms (tk k)) + POLL_INTERVAL_MS
          + Z.of_N (timer_extra_ms (tk k)))%Z with (elapsed_before tk (S k)).
  pose proof (elapsed_before_step k).
  unfold POLL_INTERVAL_MS, TIMEOUT_MS in *.
  apply IH; [lia|lia|lia|]. intros i Hi. apply Hnone. lia.
Qed.

End PollFacts.

(** Two worlds that agree on the first ten polls give the same loop
    result, with any two sufficient amounts of fuel. *)
Lemma poll_loop_agree company tk tk' fuel fuel' k elapsed :
  (forall i, (i < 10)%nat -> tk i = tk' i) ->
  (POLL_INTERVAL_MS * Z.of_nat k <= elapsed)%Z ->
  (TIMEOUT_MS - elapsed <= POLL_INTERVAL_MS * (Z.of_nat fuel - 1))%Z ->
  (1 <= fuel)%nat ->
  (TIMEOUT_MS - elapsed <= POLL_INTERVAL_MS * (Z.of_nat fuel' - 1))%Z ->
  (1 <= fuel')%nat ->
  poll_loop fuel company tk k elapsed = poll_loop fuel' company tk' k elapsed.
Proof.
  intros Hagree. revert fuel' k elapsed.
  induction fuel as [|fuel IH]; intros fuel' k elapsed Hk Hb Hf Hb' Hf'; [lia|].
  destruct fuel' as [|fuel']; [lia|].
  simpl. destruct (Z.ltb_spec elapsed TIMEOUT_MS) as [Hlt|_]; [|done].
  unfold POLL_INTERVAL_MS, TIMEOUT_MS in *.
  rewrite <- (Hagree k) by lia.
  destruct (poll_once company (tk k)) as [[ceo|]|e]; [done| |done].
  apply IH; lia.
Qed.

(** X1. The value [enrichWithSignalHire] returns is decided by the
    dispatch and the first ten polls: what the poll endpoint would answer
    to an eleventh or later poll has no influence, because the 15000 ms
    budget is spent after at most ten rounds of at least 1500 ms. *)
Theorem enrich_decided_by_first_ten_polls
  (fuel fuel' : nat) (env env' : Env) (company : jsval) :
  (ENOUGH_FUEL <= fuel)%nat -> (ENOUGH_FUEL <= fuel')%nat ->
  (forall w, dispatch env w = dispatch env' w) ->
  (forall i, (i < 10)%nat -> ticks env i = ticks env' i) ->
  enrichWithSignalHire fuel env company
  = enrichWithSignalHire fuel' env' company.
Proof.
  intros [Hb Hf]%enough_fuel_covers [Hb' Hf']%enough_fuel_covers Hd Ht.
  unfold enrichWithSignalHire, enrich_try.
  destruct (get_prop company "website") as [w|e]; [|done].
  rewrite <- Hd. destruct (dispatch env w) as [[]|e]; [|done].
  rewrite (poll_loop_agree company (ticks env) (ticks env') fuel fuel' 0 0 Ht);
    unfold POLL_INTERVAL_MS, TIMEOUT_MS in *; (done || lia).
Qed.

Lemma enrich_decided_by_first_ten_polls_witness :
  let company := mk_company "Acme" "http://www.acme.com/" in
  let late := mk_record "success" "acme.com" "Acme" in
  let env := {| dispatch := fun _ => Ok ();
                ticks := fun _ => {| fetch_ms := 0; response := Ok (JArr []);
                                     timer_extra_ms := 0 |} |} in
  let env' := {| dispatch := fun _ => Ok ();
                 ticks := fun i =>
                   {| fetch_ms := 0;
                      response := Ok (JArr (if (i <? 10)%nat then [] else [late]));
                      timer_extra_ms := 0 |} |} in
  enrichWithSignalHire 11 env company = enrichWithSignalHire 12 env' company.
Proof.
  intros company late env env'.
  apply enrich_decided_by_first_ten_polls.
  - unfold ENOUGH_FUEL; lia.
  - unfold ENOUGH_FUEL; lia.
  - reflexivity.
  - intros i Hi. simpl. apply Nat.ltb_lt in Hi. by rewrite Hi.
Defined.

(** X2. The waiter resolves with the first poll that finds a match,
    provided that poll is made before 15000 ms have elapsed: with the
    dispatch gone through, polls 0..j-1 finding nothing and poll j
    finding a candidate, the result carries the [ceo] built from that
    candidate and nothing is logged. *)
Theorem enrich_resolves_at_first_matching_poll
  (fuel : nat) (env : Env) (company website ceo : jsval) (j : nat) :
  (ENOUGH_FUEL <= fuel)%nat ->
  get_prop company "website" = Ok website ->
  dispatch env website = Ok () ->
  (forall i, (i < j)%nat -> poll_once company (ticks env i) = Ok None) ->
  poll_once company (ticks env j) = Ok (Some ceo) ->
  (elapsed_before (ticks env) j < TIMEOUT_MS)%Z ->
  enrichWithSignalHire fuel env company
  = Some {| value := with_ceo company ceo; logged := [] |}.
Proof.
  intros [Hb Hf]%enough_fuel_covers Hw Hd Hnone Hj Hlt.
  unfold enrichWithSignalHire, enrich_try. rewrite Hw, Hd.
  change 0%Z with (elapsed_before (ticks env) 0) at 1.
  rewrite (poll_loop_first_match company (ticks env) fuel 0 j ceo);
    [|done|done|lia| |done|done].
  - by rewrite (populated_truthy ceo (poll_once_populated _ _ _ Hj)).
  - intros i Hi. apply Hnone. lia.
Qed.

Lemma enrich_resolves_at_first_matching_poll_witness :
  let company := mk_company "Acme" "http://www.acme.com/" in
  let record := mk_record "success" "acme.com" "Acme" in
  let env := {| dispatch := fun _ => Ok ();
                ticks := fun i =>
                  {| fetch_ms := 40;
                     response := Ok (JArr (if (i <? 2)%nat then [] else [record]));
                     timer_extra_ms := 5 |} |} in
  enrichWithSignalHire 11 env company
  = Some {| value := with_ceo company
                       (ceo_object (JStr "N/A") (JStr "N/A") (JStr "N/A") (JStr "N/A"));
            logged := [] |}.
Proof.
  intros company record env.
  apply (enrich_resolves_at_first_matching_poll 11 env company
           (JStr "http://www.acme.com/") _ 2).
  - unfold ENOUGH_FUEL; lia.
  - reflexivity.
  - reflexivity.
  - intros i Hi. destruct i as [|[|i]]; [reflexivity|reflexivity|lia].
  - reflexivity.
  - reflexivity.
Defined.

(** X3. A record that reaches the sink too late is never seen: when
    15000 ms have elapsed before poll number j and the polls made before
    it found nothing, the result is the not-found sentinel, whatever
    poll j and the later ones would have returned. *)
Theorem enrich_ignores_match_after_budget
  (fuel : nat) (env : Env) (company website : jsval) (j : nat) :
  (ENOUGH_FUEL <= fuel)%nat ->
  get_prop company "website" = Ok website ->
  dispatch env website = Ok () ->
  (forall i, (i < j)%nat -> poll_once company (ticks env i) = Ok None) ->
  (TIMEOUT_MS <= elapsed_before (ticks env) j)%Z ->
  enrichWithSignalHire fuel env company
  = Some {| value := with_ceo company NOT_FOUND; logged := [] |}.
Proof.
  intros [Hb Hf]%enough_fuel_covers Hw Hd Hnone Hge.
  unfold enrichWithSignalHire, enrich_try. rewrite Hw, Hd.
  change 0%Z with (elapsed_before (ticks env) 0) at 1.
  rewrite (poll_loop_budget_spent company (ticks env) fuel 0 j);
    [done|done|done|lia| |done].
  intros i Hi. apply Hnone. lia.
Qed.

Lemma enrich_ignores_match_after_budget_witness :
  let company := mk_company "Acme" "http://www.acme.com/" in
  let record := mk_record "success" "acme.com" "Acme" in
  let env := {| dispatch := fun _ => Ok ();
                ticks := fun i =>
                  {| fetch_ms := 14000;
                     response := Ok (JArr (if (i <? 1)%nat then [] else [record]));
                     timer_extra_ms := 0 |} |} in
  enrichWithSignalHire 11 env company
  = Some {| value := with_ceo company NOT_FOUND; logged := [] |}.
Proof.
  intros company record env.
  apply (enrich_ignores_match_after_budget 11 env company
           (JStr "http://www.acme.com/") 1).
  - unfold ENOUGH_FUEL; lia.
  - reflexivity.
  - reflexivity.
  - intros i Hi. destruct i; [reflexivity|lia].
  - simpl. unfold TIMEOUT_MS, POLL_INTERVAL_MS. lia.
Defined.

(* ===================================================================== *)
(** * More on the matcher                                                 *)
(* ===================================================================== *)

Lemma find_throw pred pre r post e :
  Forall (fun x => pred x = Ok false) pre -> pred r = Throw e ->
  JS.find pred (pre ++ r :: post) = Throw e.
Proof.
  intros Hpre Hr. induction Hpre as [|x pre Hx _ IH]; simpl.
  - by rewrite Hr.
  - by rewrite Hx.
Qed.

(** The matcher reads nothing of a record but its [candidate]. *)
Lemma is_match_candidate_only company r r' :
  get_prop r "candidate" = get_prop r' "candidate" ->
  is_match company r = is_match company r'.
Proof. unfold is_match. by intros ->. Qed.

(** X4. A stored entry that is not an object is never matched: an array
    (a whole array payload pushed as one entry), a string, a number or a
    boolean is rejected without a fault for every query.  Hence a
    snapshot that consists of array payloads only yields none, whatever
    the arrays contain. *)
Theorem is_match_rejects_non_objects (company : jsval) :
  (forall items, is_match company (JArr items) = Ok false) /\
  (forall s, is_match company (JStr s) = Ok false) /\
  (forall n, is_match company (JNum n) = Ok false) /\
  (forall b, is_match company (JBool b) = Ok false) /\
  (forall payloads : list (list jsval),
      findMatch company (JArr (JArr <$> payloads)) = Ok None).
Proof.
  repeat split; try reflexivity.
  intros payloads. unfold findMatch. simpl as_array. run_binds.
  apply find_none. apply Forall_fmap, Forall_forall. reflexivity.
Qed.

(** X5. The matcher does not depend on a record's [status], nor on any
    other property than [candidate]: setting or changing any other
    property of a record leaves the decision (and a fault, if any)
    unchanged. *)
Theorem is_match_ignores_other_properties
  (company : jsval) (fields : gmap string jsval) (k : string) (v : jsval) :
  k <> "candidate" ->
  is_match company (JObj (<[k := v]> fields)) = is_match company (JObj fields).
Proof.
  intros Hk. apply is_match_candidate_only. simpl.
  by rewrite lookup_insert_ne.
Qed.

Lemma is_match_ignores_other_properties_witness :
  let company := mk_company "Acme" "http://www.acme.com/" in
  let fields : gmap string jsval :=
    <["candidate" := mk_candidate "acme.com" "Acme"]> ∅ in
  "status" <> "candidate" /\
  is_match company (JObj (<["status" := JStr "failed"]> fields))
  = is_match company (JObj fields).
Proof.
  intros company fields.
  assert ("status" <> "candidate") as H by discriminate.
  split; [exact H|].
  exact (is_match_ignores_other_properties company fields "status"
           (JStr "failed") H).
Defined.

Lemma lower_eq_empty s : lower s = "" -> s = "".
Proof. by destruct s. Qed.

(** X6. The matcher sees a query only through the normalized website
    and the lower-cased name: two queries whose websites normalize to the
    same string and whose names agree up to letter case accept exactly
    the same records (and fault on the same records). *)
Theorem is_match_query_up_to_normalization
  (name1 name2 website1 website2 : string) (r : jsval) :
  Spec.normalize website1 = Spec.normalize website2 ->
  lower name1 = lower name2 ->
  is_match (mk_company name1 website1) r
  = is_match (mk_company name2 website2) r.
Proof.
  intros Hw Hn.
  assert (truthy (JStr name1) = truthy (JStr name2)) as Ht.
  { simpl. destruct (String.eqb_spec name1 "") as [->|H1];
      destruct (String.eqb_spec name2 "") as [->|H2]; try done.
    - symmetry in Hn. by apply lower_eq_empty in Hn.
    - by apply lower_eq_empty in Hn. }
  assert (forall cand,
    (ccompany ← get_prop cand "company";
     if negb (truthy ccompany) then Ok false
     else
       name ← get_prop (mk_company name1 website1) "name";
       if negb (truthy name) then Ok false
       else hay ← toLowerCase ccompany; needle ← toLowerCase name;
            Ok (includes hay needle))
    = (ccompany ← get_prop cand "company";
       if negb (truthy ccompany) then Ok false
       else
         name ← get_prop (mk_company name2 website2) "name";
         if negb (truthy name) then Ok false
         else hay ← toLowerCase ccompany; needle ← toLowerCase name;
              Ok (includes hay needle))) as Hfallback.
  { intros cand. destruct (get_prop cand "company") as [cc|]; [|done]. run_binds.
    destruct (truthy cc); [|done]. cbn [negb]. cbn iota.
    rewrite !company_name. run_binds. rewrite Ht.
    destruct (truthy (JStr name2)); [|done]. cbn [negb]. cbn iota.
    destruct (toLowerCase cc) as [hay|]; [|done]. run_binds.
    simpl toLowerCase. run_binds. by rewrite Hn. }
  unfold is_match.
  destruct (get_prop r "candidate") as [cand|]; [|done]. run_binds.
  destruct (truthy cand); [|done]. cbn [negb]. cbn iota.
  destruct (get_prop cand "website") as [w|]; [|done]. run_binds.
  destruct (truthy w).
  - destruct (normalizeUrl w) as [a|]; [|done]. run_binds.
    rewrite !company_website. run_binds.
    rewrite !normalizeUrl_string, Hw. run_binds.
    destruct (String.eqb a (Spec.normalize website2)); [done|].
    apply Hfallback.
  - run_binds. apply Hfallback.
Qed.

Lemma is_match_query_up_to_normalization_witness :
  let r := mk_record "success" "acme.com" "ACME Corp" in
  Spec.normalize "HTTPS://www.Acme.com/" = Spec.normalize "acme.com" /\
  lower "Acme" = lower "acme" /\
  is_match (mk_company "Acme" "HTTPS://www.Acme.com/") r
  = is_match (mk_company "acme" "acme.com") r.
Proof.
  intros r.
  assert (Spec.normalize "HTTPS://www.Acme.com/" = Spec.normalize "acme.com")
    as H1 by reflexivity.
  assert (lower "Acme" = lower "acme") as H2 by reflexivity.
  split; [exact H1|]. split; [exact H2|].
  exact (is_match_query_up_to_normalization _ _ _ _ r H1 H2).
Defined.

(* ===================================================================== *)
(** * The sink over a run of requests                                     *)
(* ===================================================================== *)

Lemma ingest_all_cons st req reqs :
  CallbackRoute.ingest_all st (req :: reqs)
  = CallbackRoute.ingest_all (fst (CallbackRoute.POST st req)) reqs.
Proof. reflexivity. Qed.

Lemma ingest_all_responses st reqs :
  CallbackRoute.responses (CallbackRoute.ingest_all st reqs)
  = CallbackRoute.responses st
    ++ omap (fun req => match CallbackRoute.body req with
                        | Ok data => Some data
                        | Throw _ => None
                        end) reqs.
Proof.
  revert st. induction reqs as [|req reqs IH]; intros st.
  - simpl. by rewrite app_nil_r.
  - rewrite ingest_all_cons, IH. simpl omap.
    unfold CallbackRoute.POST.
    destruct (CallbackRoute.body req) as [data|e]; simpl; [|done].
    destruct (CallbackRoute.write_ok req); simpl; by rewrite <- app_assoc.
Qed.

(** X7. After any run of callback requests the sink holds, after what it
    held before, exactly the bodies of the requests that parsed as JSON,
    in arrival order and one entry per request; malformed requests leave
    no entry, a failing backup write does not lose the entry, and nothing
    stored earlier is removed or changed. *)
Theorem ingest_all_keeps_parsed_bodies
  (st : CallbackRoute.State) (reqs : list CallbackRoute.Request) :
  CallbackRoute.responses (CallbackRoute.ingest_all st reqs)
  = CallbackRoute.responses st
    ++ omap (fun req => match CallbackRoute.body req with
                        | Ok data => Some data
                        | Throw _ => None
                        end) reqs.
Proof. apply ingest_all_responses. Qed.

(** X8. One [null] callback body spoils the waiter: the callback route
    accepts the body [null] (it is valid JSON) and stores it, and from
    then on every snapshot contains it; a poll whose snapshot has no
    match in front of the [null] entry faults on it, and the enrichment
    ends with the error sentinel, whatever arrives later. *)
Theorem null_callback_body_spoils_waiter
  (st : CallbackRoute.State) (req : CallbackRoute.Request)
  (later : list CallbackRoute.Request)
  (fuel : nat) (env : Env) (company website : jsval) :
  CallbackRoute.body req = Ok JNull ->
  Forall (fun x => is_match company x = Ok false) (CallbackRoute.responses st) ->
  response (ticks env 0)
  = Ok (CallbackRoute.json
          (CallbackRoute.GET
             (CallbackRoute.ingest_all (fst (CallbackRoute.POST st req)) later))) ->
  get_prop company "website" = Ok website ->
  dispatch env website = Ok () ->
  (1 <= fuel)%nat ->
  enrichWithSignalHire fuel env company
  = Some {| value := with_ceo company ERROR_CEO; logged := [TypeError] |}.
Proof.
  intros Hbody Hpre Hresp Hw Hd Hf.
  unfold CallbackRoute.GET in Hresp. cbn [CallbackRoute.json] in Hresp.
  rewrite ingest_all_responses, (POST_pushes_body _ _ _ Hbody) in Hresp.
  rewrite <- app_assoc in Hresp. cbn [app] in Hresp.
  unfold enrichWithSignalHire, enrich_try. rewrite Hw, Hd.
  destruct fuel as [|fuel]; [lia|]. simpl.
  unfold poll_once. rewrite Hresp. run_binds.
  unfold findMatch. simpl as_array. run_binds.
  by rewrite (find_throw _ _ JNull _ TypeError Hpre).
Qed.

Lemma null_callback_body_spoils_waiter_witness :
  let company := mk_company "Acme" "http://www.acme.com/" in
  let bad := {| CallbackRoute.body := Ok JNull;
                CallbackRoute.now_iso := "2024-05-01T10:20:30.123Z";
                CallbackRoute.write_ok := true |} in
  let good := {| CallbackRoute.body := Ok (mk_record "success" "acme.com" "Acme");
                 CallbackRoute.now_iso := "2024-05-01T10:20:31.000Z";
                 CallbackRoute.write_ok := true |} in
  let st := CallbackRoute.ingest_all
              (fst (CallbackRoute.POST CallbackRoute.initial bad)) [good] in
  let env := {| dispatch := fun _ => Ok ();
                ticks := fun _ =>
                  {| fetch_ms := 10;
                     response := Ok (CallbackRoute.json (CallbackRoute.GET st));
                     timer_extra_ms := 0 |} |} in
  enrichWithSignalHire 11 env company
  = Some {| value := with_ceo company ERROR_CEO; logged := [TypeError] |}.
Proof.
  intros company bad good st env.
  apply (null_callback_body_spoils_waiter CallbackRoute.initial bad [good]
           11 env company (JStr "http://www.acme.com/")).
  - reflexivity.
  - constructor.
  - reflexivity.
  - reflexivity.
  - reflexivity.
  - lia.
Defined.

(* ===================================================================== *)
(** * Building the [ceo] object                                           *)
(* ===================================================================== *)

(** X9. [contacts.find((c) => c.type === kind)?.value] takes the value
    of the first contact of the wanted type: contacts of other types in
    front of it are skipped, later contacts of the same type are not
    looked at, and without a contact of that type the result is
    [undefined]. *)
Theorem contact_value_first_of_kind (kind : string) :
  (forall pre c post,
      Forall (fun x => exists t, get_prop x "type" = Ok t /\
                                 strict_eq_str t kind = false) pre ->
      get_prop c "type" = Ok (JStr kind) ->
      contact_value kind (JArr (pre ++ c :: post)) = get_prop c "value") /\
  (forall l,
      Forall (fun x => exists t, get_prop x "type" = Ok t /\
                                 strict_eq_str t kind = false) l ->
      contact_value kind (JArr l) = Ok JUndefined).
Proof.
  assert (forall l,
    Forall (fun x => exists t, get_prop x "type" = Ok t /\
                               strict_eq_str t kind = false) l ->
    Forall (fun x => (t ← get_prop x "type"; Ok (strict_eq_str t kind))
                     = Ok false) l) as Hconv.
  { intros l H. eapply Forall_impl; [exact H|].
    intros x (t & Ht & Hk). rewrite Ht. run_binds. by rewrite Hk. }
  split.
  - intros pre c post Hpre Hc. unfold contact_value. simpl as_array. run_binds.
    rewrite (find_first _ pre c post (Hconv _ Hpre)); [by run_binds|].
    rewrite Hc. run_binds. simpl. by rewrite String.eqb_refl.
  - intros l Hl. unfold contact_value. simpl as_array. run_binds.
    by rewrite (find_none _ l (Hconv _ Hl)).
Qed.

Lemma contact_value_first_of_kind_witness :
  let contact t v := JObj (<["type" := JStr t]> (<["value" := JStr v]> ∅)) in
  contact_value "email"
    (JArr ([contact "phone" "+1 555 0100"]
           ++ contact "email" "jane@acme.com" :: [contact "email" "info@acme.com"]))
  = Ok (JStr "jane@acme.com").
Proof.
  intros contact.
  refine (proj1 (contact_value_first_of_kind "email")
            [contact "phone" "+1 555 0100"] (contact "email" "jane@acme.com")
            [contact "email" "info@acme.com"] _ _).
  - constructor; [|constructor]. exists (JStr "phone"). split; reflexivity.
  - reflexivity.
Defined.

Lemma contact_value_ok kind (l : list jsval) :
  Forall (fun x => x <> JNull /\ x <> JUndefined) l ->
  exists v, contact_value kind (JArr l) = Ok v.
Proof.
  intros Hl. unfold contact_value. simpl as_array. run_binds.
  induction Hl as [|x l [Hx1 Hx2] _ IH]; simpl; [eauto|].
  destruct (get_prop x "type") as [t|e] eqn:Et; [|by destruct x].
  run_binds. destruct (strict_eq_str t kind); [|exact IH].
  run_binds. destruct x; try done; simpl; eauto.
Qed.

(** X10. [ceo] from a matched candidate.  For a candidate whose
    [contacts] is missing (or otherwise falsy) or an array without [null]
    entries, the object is built without a fault: [name] is
    [candidate.fullName] and [title] is [candidate.headLine], each
    replaced by ['N/A'] when falsy, and [email] and [phone] are never
    falsy; without contacts both are ['N/A'].  A [contacts] that is
    truthy but not an array makes the construction throw. *)
Theorem build_ceo_defaults (candidate c0 fullName headLine : jsval) :
  get_prop candidate "contacts" = Ok c0 ->
  get_prop candidate "fullName" = Ok fullName ->
  get_prop candidate "headLine" = Ok headLine ->
  (truthy c0 = false ->
   build_ceo candidate
   = Ok (ceo_object (js_or fullName (JStr "N/A")) (js_or headLine (JStr "N/A"))
                    (JStr "N/A") (JStr "N/A"))) /\
  (forall l, c0 = JArr l ->
             Forall (fun x => x <> JNull /\ x <> JUndefined) l ->
             exists email phone,
               build_ceo candidate
               = Ok (ceo_object (js_or fullName (JStr "N/A"))
                                (js_or headLine (JStr "N/A")) email phone) /\
               truthy email = true /\ truthy phone = true) /\
  (truthy c0 = true -> (forall l, c0 <> JArr l) ->
   build_ceo candidate = Throw TypeError).
Proof.
  intros Hc Hf Hh. unfold build_ceo. rewrite Hc. run_binds. cbv zeta.
  rewrite Hf. run_binds. rewrite Hh. run_binds.
  split; [|split].
  - intros Ht.
    replace (js_or c0 (JArr [])) with (JArr []) by (unfold js_or; by rewrite Ht).
    reflexivity.
  - intros l -> Hl.
    replace (js_or (JArr l) (JArr [])) with (JArr l) by reflexivity.
    destruct (contact_value_ok "email" l Hl) as [e He].
    destruct (contact_value_ok "phone" l Hl) as [p Hp].
    rewrite He. run_binds. rewrite Hp. run_binds.
    exists (js_or e (JStr "N/A")), (js_or p (JStr "N/A")).
    split; [done|]. split; by apply js_or_default_truthy.
  - intros Ht Hna.
    replace (js_or c0 (JArr [])) with c0 by (unfold js_or; by rewrite Ht).
    destruct c0; try done. by destruct (Hna items).
Qed.

Lemma build_ceo_defaults_witness :
  let candidate :=
    JObj (<["fullName" := JStr "Jane Roe"]> (<["website" := JStr "acme.com"]> ∅)) in
  build_ceo candidate
  = Ok (ceo_object (js_or (JStr "Jane Roe") (JStr "N/A"))
                   (js_or JUndefined (JStr "N/A")) (JStr "N/A") (JStr "N/A")).
Proof.
  intros candidate.
  refine (proj1 (build_ceo_defaults candidate JUndefined (JStr "Jane Roe")
                   JUndefined _ _ _) _); reflexivity.
Defined.

(* ===================================================================== *)
(** * The backup files                                                    *)
(* ===================================================================== *)

Lemma replace_colon_dot_length s :
  String.length (replace_colon_dot s) = String.length s.
Proof. induction s as [|c s IH]; simpl; [done|]. by rewrite IH. Qed.

Lemma replace_colon_dot_chars s c :
  c ∈ list_ascii_of_string (replace_colon_dot s) ->
  c <> ":"%char /\ c <> "."%char.
Proof.
  induction s as [|a s IH]; simpl.
  - intros H. by apply elem_of_nil in H.
  - intros [->|H]%elem_of_cons; [|by apply IH].
    destruct (Ascii.eqb_spec a ":") as [->|H1]; simpl; [done|].
    destruct (Ascii.eqb_spec a ".") as [->|H2]; simpl; done.
Qed.

Lemma replace_colon_dot_id s :
  (forall c, c ∈ list_ascii_of_string s -> c <> ":"%char /\ c <> "."%char) ->
  replace_colon_dot s = s.
Proof.
  induction s as [|a s IH]; simpl; [done|]. intros H.
  destruct (H a) as [H1 H2]; [by left|].
  apply Ascii.eqb_neq in H1, H2. rewrite H1, H2. simpl. f_equal.
  apply IH. intros c Hc. apply H. by right.
Qed.

(** X11. The name of a backup file is [signalhire_response_], the clock
    reading with every [:] and [.] replaced by [-], and [.json]: the
    middle part has the length of the clock reading and contains
    neither [:] nor [.], and a reading without those characters is kept
    as it is. *)
Theorem backup_name_shape (iso : string) :
  exists stamp,
    CallbackRoute.backup_name iso
    = "signalhire_response_" +:+ stamp +:+ ".json" /\
    String.length stamp = String.length iso /\
    (forall c, c ∈ list_ascii_of_string stamp ->
               c <> ":"%char /\ c <> "."%char) /\
    ((forall c, c ∈ list_ascii_of_string iso ->
                c <> ":"%char /\ c <> "."%char) -> stamp = iso).
Proof.
  exists (replace_colon_dot iso). split; [reflexivity|].
  split; [apply replace_colon_dot_length|]. split.
  - apply replace_colon_dot_chars.
  - apply replace_colon_dot_id.
Qed.

Lemma backup_name_shape_witness :
  exists stamp,
    CallbackRoute.backup_name "2024-05-01T10:20:30.123Z"
    = "signalhire_response_" +:+ stamp +:+ ".json" /\
    String.length stamp = String.length "2024-05-01T10:20:30.123Z" /\
    (forall c, c ∈ list_ascii_of_string stamp ->
               c <> ":"%char /\ c <> "."%char) /\
    ((forall c, c ∈ list_ascii_of_string "2024-05-01T10:20:30.123Z" ->
                c <> ":"%char /\ c <> "."%char) ->
     stamp = "2024-05-01T10:20:30.123Z").
Proof. exact (backup_name_shape "2024-05-01T10:20:30.123Z"). Defined.

Lemma ingest_all_snoc st reqs req :
  CallbackRoute.ingest_all st (reqs ++ [req])
  = fst (CallbackRoute.POST (CallbackRoute.ingest_all st reqs) req).
Proof. unfold CallbackRoute.ingest_all. by rewrite foldl_snoc. Qed.

(** X12. The backup directory never holds anything the sink does not
    hold: after any run of requests from the empty state, every backup
    file contains a payload that is in the sink, it was written by a
    request of the run whose body parsed and whose write succeeded, and
    it is named after that request's clock reading. *)
Theorem backup_files_are_in_sink
  (reqs : list CallbackRoute.Request) (name : string) (data : jsval) :
  CallbackRoute.data_dir (CallbackRoute.ingest_all CallbackRoute.initial reqs)
    !! name = Some data ->
  data ∈ CallbackRoute.responses
           (CallbackRoute.ingest_all CallbackRoute.initial reqs) /\
  exists req,
    req ∈ reqs /\
    name = CallbackRoute.backup_name (CallbackRoute.now_iso req) /\
    CallbackRoute.body req = Ok data /\
    CallbackRoute.write_ok req = true.
Proof.
  revert name data. induction reqs as [|req reqs IH] using rev_ind;
    intros name data.
  - simpl. by rewrite lookup_empty.
  - rewrite ingest_all_snoc.
    set (st := CallbackRoute.ingest_all CallbackRoute.initial reqs) in *.
    assert (forall n d,
      CallbackRoute.data_dir st !! n = Some d ->
      d ∈ CallbackRoute.responses st /\
      exists r, r ∈ reqs ++ [req] /\
        n = CallbackRoute.backup_name (CallbackRoute.now_iso r) /\
        CallbackRoute.body r = Ok d /\ CallbackRoute.write_ok r = true) as IH'.
    { intros n d H. destruct (IH n d H) as (Hin & r & Hr & ?).
      split; [done|]. exists r. split; [|done].
      apply elem_of_app. by left. }
    unfold CallbackRoute.POST.
    destruct (CallbackRoute.body req) as [d|e] eqn:Hbody; simpl; [|apply IH'].
    destruct (CallbackRoute.write_ok req) eqn:Hwrite; simpl.
    + destruct (decide (CallbackRoute.backup_name (CallbackRoute.now_iso req) = name))
        as [<-|Hne].
      * rewrite lookup_insert_eq. intros [= <-]. split.
        -- apply elem_of_app. right. by apply list_elem_of_singleton.
        -- exists req. split; [|done]. apply elem_of_app. right.
           by apply list_elem_of_singleton.
      * rewrite lookup_insert_ne by done. intros H.
        destruct (IH' name data H) as [Hin Hex]. split; [|done].
        apply elem_of_app. by left.
    + intros H. destruct (IH' name data H) as [Hin Hex]. split; [|done].
      apply elem_of_app. by left.
Qed.

Lemma backup_files_are_in_sink_witness :
  let data := mk_record "success" "acme.com" "Acme" in
  let req := {| CallbackRoute.body := Ok data;
                CallbackRoute.now_iso := "2024-05-01T10:20:30.123Z";
                CallbackRoute.write_ok := true |} in
  data ∈ CallbackRoute.responses
           (CallbackRoute.ingest_all CallbackRoute.initial [req]).
Proof.
  intros data req.
  refine (proj1 (backup_files_are_in_sink [req]
                   "signalhire_response_2024-05-01T10-20-30-123Z.json" data _)).
  reflexivity.
Defined.



(* ===================================================================== *)
(** * The search handler                                                  *)
(* ===================================================================== *)





(** X15. How the search handler fails.  A JSON body other than [null]
    whose [query] is missing or falsy is answered 400 "Query is required"
    and nothing is logged; the body [null] is answered 500; with a truthy
    query, a missing search API key is answered 500 with the error text
    "SerpAPI key is missing" and a search engine reply that is not ok
    with "Failed to fetch from SerpAPI"; in each of these cases no
    company is enriched. *)
Theorem isv_search_POST_failures (fuel : nat) (w : IsvSearchRoute.World) :
  let bad_request :=
    {| IsvSearchRoute.reply :=
         {| IsvSearchRoute.status := 400;
            IsvSearchRoute.json := JObj (<["error" := JStr "Query is required"]> ∅) |};
       IsvSearchRoute.console := []; IsvSearchRoute.enrichments := [] |} in
  let failure e msg :=
    {| IsvSearchRoute.reply :=
         {| IsvSearchRoute.status := 500;
            IsvSearchRoute.json := JObj (<["error" := JStr msg]> ∅) |};
       IsvSearchRoute.console := [e]; IsvSearchRoute.enrichments := [] |} in
  (forall body query,
      IsvSearchRoute.request_body w = Ok body ->
      get_prop body "query" = Ok query -> truthy query = false ->
      IsvSearchRoute.POST fuel w = Some bad_request) /\
  (IsvSearchRoute.request_body w = Ok JNull ->
   IsvSearchRoute.POST fuel w
   = Some (failure TypeError (IsvSearchRoute.message w TypeError))) /\
  (forall body query,
      IsvSearchRoute.request_body w = Ok body ->
      get_prop body "query" = Ok query -> truthy query = true ->
      truthy (SERPAPI_KEY (IsvSearchRoute.serp w)) = false ->
      IsvSearchRoute.POST fuel w
      = Some (failure (Error "SerpAPI key is missing") "SerpAPI key is missing")) /\
  (forall body query reply,
      IsvSearchRoute.request_body w = Ok body ->
      get_prop body "query" = Ok query -> truthy query = true ->
      truthy (SERPAPI_KEY (IsvSearchRoute.serp w)) = true ->
      serp_fetch (IsvSearchRoute.serp w) (IsvSearchRoute.encode w query)
      = Ok (false, reply) ->
      IsvSearchRoute.POST fuel w
      = Some (failure (Error "Failed to fetch from SerpAPI")
                      "Failed to fetch from SerpAPI")).
Proof.
  intros bad_request failure. unfold IsvSearchRoute.POST. repeat split.
  - intros body query -> Hq Ht. run_binds. rewrite Hq. run_binds. by rewrite Ht.
  - by intros ->.
  - intros body query -> Hq Ht Hkey. run_binds. rewrite Hq. run_binds.
    rewrite Ht. cbn [negb]. cbn iota. unfold searchISVs. by rewrite Hkey.
  - intros body query reply -> Hq Ht Hkey Hfetch. run_binds. rewrite Hq.
    run_binds. rewrite Ht. cbn [negb]. cbn iota. unfold searchISVs.
    rewrite Hkey, Hfetch. reflexivity.
Qed.

Lemma isv_search_POST_failures_witness :
  let w := {| IsvSearchRoute.request_body := Ok (JObj (<["query" := JStr "isv"]> ∅));
              IsvSearchRoute.encode := fun _ => "isv";
              IsvSearchRoute.serp :=
                {| SERPAPI_KEY := JUndefined;
                   serp_fetch := fun _ => Throw NetworkError |};
              IsvSearchRoute.enrich_env := fun _ =>
                {| dispatch := fun _ => Ok ();
                   ticks := fun _ => {| fetch_ms := 0; response := Ok (JArr []);
                                        timer_extra_ms := 0 |} |};
              IsvSearchRoute.message := fun _ => "" |} in
  IsvSearchRoute.POST 11 w
  = Some {| IsvSearchRoute.reply :=
              {| IsvSearchRoute.status := 500;
                 IsvSearchRoute.json :=
                   JObj (<["error" := JStr "SerpAPI key is missing"]> ∅) |};
            IsvSearchRoute.console := [Error "SerpAPI key is missing"];
            IsvSearchRoute.enrichments := [] |}.
Proof.
  intros w.
  refine (proj1 (proj2 (proj2 (isv_search_POST_failures 11 w)))
            (JObj (<["query" := JStr "isv"]> ∅)) (JStr "isv") _ _ _ _);
    reflexivity.
Defined.

(* ===================================================================== *)
(** * The dispatcher route                                                *)
(* ===================================================================== *)

Section DispatcherFacts.

Import SignalHireSearchRoute.

Lemma sent_failed s f : sent (failed s f) = s.
Proof. reflexivity. Qed.

Lemma sent_respond s code body : sent (respond s code body) = s.
Proof.
  unfold respond. destruct ((code <? 200) || (599 <? code))%Z; [done|].
  by destruct ((code =? 204) || (code =? 205) || (code =? 304))%Z.
Qed.

Lemma respond_status s code body :
  (200 <= status (reply (respond s code body)) <= 599)%Z.
Proof.
  unfold respond.
  destruct (Z.ltb_spec code 200); simpl; [lia|].
  destruct (Z.ltb_spec 599 code); simpl; [lia|].
  destruct ((code =? 204) || (code =? 205) || (code =? 304))%Z; simpl; lia.
Qed.

Lemma respond_console s code body :
  console (respond s code body) <> [] ->
  reply (respond s code body) = reply (failed s RangeError).
Proof.
  unfold respond. destruct ((code <? 200) || (599 <? code))%Z; [done|].
  by destruct ((code =? 204) || (code =? 205) || (code =? 304))%Z.
Qed.

Lemma respond_200 s code body :
  status (reply (respond s code body)) = 200%Z ->
  code = 200%Z /\ respond s code body
                  = {| reply := {| status := 200; json := body |};
                       sent := s; console := [] |}.
Proof.
  unfold respond.
  destruct ((code <? 200) || (599 <? code))%Z; [discriminate|].
  destruct ((code =? 204) || (code =? 205) || (code =? 304))%Z; [discriminate|].
  simpl. by intros ->.
Qed.

Lemma dispatcher_sent_for_website w body website :
  request_body w = Ok body -> get_prop body "website" = Ok website ->
  truthy website = true ->
  sent (POST w) = [outbound w website].
Proof.
  intros Hb Hw Ht. unfold POST. rewrite Hb, Hw, Ht. cbn [negb]. cbn iota.
  destruct (signalhire w _) as [up|e]; [|done].
  destruct (negb (ok up)).
  - destruct (text up); [apply sent_respond|done].
  - destruct (body_json up); [apply sent_respond|done].
Qed.

End DispatcherFacts.



(** X17. What the dispatcher answers.  The reply status is always within
    200..599.  Whenever the handler logs a fault the reply is the fixed
    500 "Failed to search SignalHire".  A 200 reply is given only when
    the service answered with an ok status and a JSON body, and it then
    carries that body unchanged.  A service status from 300 to 599 other
    than 304 is passed on as the reply status together with the service's
    error text; a service status of 304, or one outside 200..599, ends in
    the fixed 500. *)
Theorem dispatcher_reply (w : SignalHireSearchRoute.World) :
  let o := SignalHireSearchRoute.POST w in
  let fixed_500 :=
    {| SignalHireSearchRoute.status := 500;
       SignalHireSearchRoute.json :=
         JObj (<["error" := JStr "Failed to search SignalHire"]> ∅) |} in
  (200 <= SignalHireSearchRoute.status (SignalHireSearchRoute.reply o) <= 599)%Z /\
  (SignalHireSearchRoute.console o <> [] ->
   SignalHireSearchRoute.reply o = fixed_500) /\
  (SignalHireSearchRoute.status (SignalHireSearchRoute.reply o) = 200%Z ->
   exists out up data,
     SignalHireSearchRoute.signalhire w out = Ok up /\
     SignalHireSearchRoute.ok up = true /\
     SignalHireSearchRoute.body_json up = Ok data /\
     SignalHireSearchRoute.json (SignalHireSearchRoute.reply o) = data) /\
  (forall body website up error,
      SignalHireSearchRoute.request_body w = Ok body ->
      get_prop body "website" = Ok website -> truthy website = true ->
      SignalHireSearchRoute.signalhire w (SignalHireSearchRoute.outbound w website)
      = Ok up ->
      SignalHireSearchRoute.text up = Ok error ->
      let s := SignalHireSearchRoute.upstream_status up in
      ((300 <= s <= 599)%Z -> s <> 304%Z ->
       SignalHireSearchRoute.reply o
       = {| SignalHireSearchRoute.status := s;
            SignalHireSearchRoute.json :=
              JObj (<["error" := JStr ("SignalHire API error: " +:+ error)]> ∅) |}) /\
      ((s < 200)%Z \/ (599 < s)%Z \/ s = 304%Z ->
       SignalHireSearchRoute.reply o = fixed_500)).
Proof.
  intros o fixed_500. subst o. unfold SignalHireSearchRoute.POST.
  split; [|split; [|split]].
  - destruct (SignalHireSearchRoute.request_body w) as [body|e]; [|simpl; lia].
    destruct (get_prop body "website") as [website|e]; [|simpl; lia].
    destruct (truthy website); cbn [negb]; cbn iota; [|simpl; lia].
    destruct (SignalHireSearchRoute.signalhire w _) as [up|e]; [|simpl; lia].
    destruct (negb (SignalHireSearchRoute.ok up)).
    + destruct (SignalHireSearchRoute.text up); [apply respond_status|simpl; lia].
    + destruct (SignalHireSearchRoute.body_json up); [apply respond_status|simpl; lia].
  - destruct (SignalHireSearchRoute.request_body w) as [body|e]; [|done].
    destruct (get_prop body "website") as [website|e]; [|done].
    destruct (truthy website); cbn [negb]; cbn iota; [|done].
    destruct (SignalHireSearchRoute.signalhire w _) as [up|e]; [|done].
    destruct (negb (SignalHireSearchRoute.ok up)).
    + destruct (SignalHireSearchRoute.text up); [apply respond_console|done].
    + destruct (SignalHireSearchRoute.body_json up); [apply respond_console|done].
  - destruct (SignalHireSearchRoute.request_body w) as [body|e]; [|discriminate].
    destruct (get_prop body "website") as [website|e]; [|discriminate].
    destruct (truthy website); cbn [negb]; cbn iota; [|discriminate].
    destruct (SignalHireSearchRoute.signalhire w _) as [up|e] eqn:Hup; [|discriminate].
    destruct (SignalHireSearchRoute.ok up) eqn:Hok; cbn [negb]; cbn iota.
    + destruct (SignalHireSearchRoute.body_json up) as [data|e] eqn:Hdata;
        [|discriminate].
      intros [_ ->]%respond_200. eauto 10.
    + destruct (SignalHireSearchRoute.text up) as [err|e]; [|discriminate].
      intros [Hs _]%respond_200. unfold SignalHireSearchRoute.ok in Hok.
      rewrite Hs in Hok. discriminate.
  - intros body website up error -> -> -> Hup Htext. cbv zeta. cbn [negb]. cbn iota.
    rewrite Hup. unfold SignalHireSearchRoute.ok.
    split.
    + intros Hs Hne.
      replace ((200 <=? SignalHireSearchRoute.upstream_status up)
               && (SignalHireSearchRoute.upstream_status up <=? 299))%Z
        with false by (symmetry; apply andb_false_iff; right; apply Z.leb_gt; lia).
      cbn [negb]. cbn iota. rewrite Htext. unfold SignalHireSearchRoute.respond.
      replace ((SignalHireSearchRoute.upstream_status up <? 200)
               || (599 <? SignalHireSearchRoute.upstream_status up))%Z
        with false
        by (symmetry; apply orb_false_iff; split; apply Z.ltb_ge; lia).
      replace ((SignalHireSearchRoute.upstream_status up =? 204)
               || (SignalHireSearchRoute.upstream_status up =? 205)
               || (SignalHireSearchRoute.upstream_status up =? 304))%Z
        with false
        by (symmetry; repeat (apply orb_false_iff; split); apply Z.eqb_neq; lia).
      reflexivity.
    + intros Hs.
      replace ((200 <=? SignalHireSearchRoute.upstream_status up)
               && (SignalHireSearchRoute.upstream_status up <=? 299))%Z
        with false
        by (symmetry; apply andb_false_iff;
            destruct (Z.leb_spec 200 (SignalHireSearchRoute.upstream_status up));
            [right; apply Z.leb_gt; lia|by left]).
      cbn [negb]. cbn iota. rewrite Htext. unfold SignalHireSearchRoute.respond.
      destruct (Z.ltb_spec (SignalHireSearchRoute.upstream_status up) 200);
        [done|].
      destruct (Z.ltb_spec 599 (SignalHireSearchRoute.upstream_status up));
        [done|].
      cbn [orb]. assert (SignalHireSearchRoute.upstream_status up = 304%Z) as ->
        by lia.
      reflexivity.
Qed.

Lemma dispatcher_reply_witness :
  let up := {| SignalHireSearchRoute.upstream_status := 402;
               SignalHireSearchRoute.text := Ok "credits exhausted";
               SignalHireSearchRoute.body_json := Throw SyntaxError |} in
  let w := {| SignalHireSearchRoute.request_body :=
                Ok (JObj (<["website" := JStr "acme.com"]> ∅));
              SignalHireSearchRoute.SG_HIRE := Some "k";
              SignalHireSearchRoute.NEXT_PUBLIC_BASE_URL := Some "https://app.test";
              SignalHireSearchRoute.signalhire := fun _ => Ok up |} in
  SignalHireSearchRoute.reply (SignalHireSearchRoute.POST w)
  = {| SignalHireSearchRoute.status := 402;
       SignalHireSearchRoute.json :=
         JObj (<["error" := JStr "SignalHire API error: credits exhausted"]> ∅) |}.
Proof.
  intros up w.
  refine (proj1 (proj2 (proj2 (proj2 (dispatcher_reply w)))
                   (JObj (<["website" := JStr "acme.com"]> ∅)) (JStr "acme.com")
                   up "credits exhausted" _ _ _ _ _) _ _);
    try reflexivity; simpl; lia.
Defined.

(* ===================================================================== *)
(** * What the search hands to the dispatcher                             *)
(* ===================================================================== *)

Lemma filter_accepts pred l u :
  JS.filter pred l = Ok u -> Forall (fun x => pred x = Ok true) u.
Proof.
  revert u. induction l as [|x l IH]; intros u; simpl.
  - intros [= <-]. constructor.
  - intros H. bind_inv H. bind_inv H. injection H as <-.
    destruct a; [constructor|]; eauto.
Qed.

Lemma map_result_source f l u c :
  map_result f l = Ok u -> c ∈ u -> exists r, r ∈ l /\ f r = Ok c.
Proof.
  revert u. induction l as [|x l IH]; intros u; simpl.
  - intros [= <-] Hc. by apply elem_of_nil in Hc.
  - intros H. bind_inv H. bind_inv H. injection H as <-.
    intros [->|Hc]%elem_of_cons.
    + exists x. split; [apply elem_of_cons; by left|done].
    + destruct (IH _ eq_refl Hc) as (r & Hr & Hf).
      exists r. split; [apply elem_of_cons; by right|done].
Qed.

Lemma has_link_and_title_true r :
  has_link_and_title r = Ok true ->
  exists link title,
    get_prop r "link" = Ok link /\ truthy link = true /\
    get_prop r "title" = Ok title /\ truthy title = true.
Proof.
  unfold has_link_and_title. intros H. bind_inv H.
  destruct (truthy a) eqn:Ha; [|discriminate]. bind_inv H.
  injection H as H. eauto 10.
Qed.

(** X18. Every company the search returns has a truthy [name] and a
    truthy [website] whose normalization is non-empty, so the dispatch
    request built from it, [{website: company.website}], is never turned
    away by the dispatcher's "Website is required" guard: the dispatcher
    sends exactly one request to the service for it. *)
Theorem found_company_passes_dispatcher_guard
  (env : SerpEnv) (query : string) (u : list jsval) (c : jsval) :
  searchISVs env query = Ok u -> c ∈ u ->
  exists name website,
    c = JObj (<["name" := name]> (<["website" := website]> ∅)) /\
    truthy name = true /\ truthy website = true /\ key_of c <> "" /\
    forall w : SignalHireSearchRoute.World,
      SignalHireSearchRoute.request_body w
      = Ok (JObj (<["website" := website]> ∅)) ->
      SignalHireSearchRoute.sent (SignalHireSearchRoute.POST w)
      = [SignalHireSearchRoute.outbound w website].
Proof.
  unfold searchISVs.
  destruct (truthy (SERPAPI_KEY env)); simpl; [|discriminate].
  intros H Hc. bind_inv H. destruct (fst a); simpl in H; [|discriminate].
  bind_inv H. bind_inv H. rename a1 into results.
  pose proof (dedupe_ok_keys _ _ _ H) as Htyped.
  destruct (dedupe_props ∅ results Htyped) as (u' & Hu & Hsub & _ & Hkeys & _).
  rewrite Hu in H. injection H as ->.
  assert (c ∈ results) as Hin by (by eapply elem_of_sublist).
  unfold top_results in E1. bind_inv E1. bind_inv E1. bind_inv E1.
  destruct (map_result_source _ _ _ _ E1 Hin) as (r & Hr & Hto).
  apply subseteq_take in Hr.
  pose proof (filter_accepts _ _ _ E4) as Hacc.
  rewrite Forall_forall in Hacc.
  destruct (has_link_and_title_true r (Hacc r Hr))
    as (link & title & Hl & Hlt & Ht & Htt).
  unfold to_company in Hto. rewrite Ht, Hl in Hto. injection Hto as <-.
  exists title, link. split; [done|]. split; [done|]. split; [done|].
  split; [by apply Hkeys|].
  intros w Hw.
  by apply (dispatcher_sent_for_website w (JObj (<["website" := link]> ∅)) link).
Qed.

Lemma found_company_passes_dispatcher_guard_witness :
  let hit := JObj (<["title" := JStr "Acme"]>
                  (<["link" := JStr "https://www.acme.com/"]> ∅)) in
  let serpData := JObj (<["organic_results" := JArr [hit]]> ∅) in
  let env := {| SERPAPI_KEY := JStr "key";
                serp_fetch := fun _ => Ok (true, Ok serpData) |} in
  let c := mk_company "Acme" "https://www.acme.com/" in
  searchISVs env "isv" = Ok [c] /\ c ∈ [c] /\
  exists name website,
    c = JObj (<["name" := name]> (<["website" := website]> ∅)) /\
    truthy name = true /\ truthy website = true /\ key_of c <> "" /\
    forall w : SignalHireSearchRoute.World,
      SignalHireSearchRoute.request_body w
      = Ok (JObj (<["website" := website]> ∅)) ->
      SignalHireSearchRoute.sent (SignalHireSearchRoute.POST w)
      = [SignalHireSearchRoute.outbound w website].
Proof.
  intros hit serpData env c.
  assert (searchISVs env "isv" = Ok [c]) as H1 by reflexivity.
  assert (c ∈ [c]) as H2 by (apply elem_of_cons; by left).
  split; [exact H1|]. split; [exact H2|].
  exact (found_company_passes_dispatcher_guard env "isv" [c] c H1 H2).
Defined.

(* ===================================================================== *)
(** * The page's poll and the stand-alone callback server                 *)
(* ===================================================================== *)

Lemma get_prop_truthy v k : truthy v = true -> exists x, get_prop v k = Ok x.
Proof. destruct v; simpl; try discriminate; eauto. Qed.

Lemma strict_eq_str_true v lit : strict_eq_str v lit = true -> v = JStr lit.
Proof.
  destruct v; try discriminate. simpl. by intros ->%String.eqb_eq.
Qed.

(** The page and the waiter build the same object from a candidate: the
    page evaluates the contacts first, the waiter the names first. *)
Lemma page_builds_like_waiter candidate :
  truthy candidate = true ->
  (c0 ← get_prop candidate "contacts";
   let contacts := js_or c0 (JArr []) in
   email ← contact_value "email" contacts;
   phone ← contact_value "phone" contacts;
   fullName ← get_prop candidate "fullName";
   headLine ← get_prop candidate "headLine";
   Ok (Some (ceo_object (js_or fullName (JStr "N/A"))
                        (js_or headLine (JStr "N/A"))
                        (js_or email (JStr "N/A"))
                        (js_or phone (JStr "N/A")))))
  = (ceo ← build_ceo candidate; Ok (Some ceo)).
Proof.
  intros Ht. unfold build_ceo.
  destruct (get_prop_truthy candidate "contacts" Ht) as [c0 ->].
  destruct (get_prop_truthy candidate "fullName" Ht) as [fn ->].
  destruct (get_prop_truthy candidate "headLine" Ht) as [hl ->].
  run_binds. cbv zeta.
  destruct (contact_value "email" (js_or c0 (JArr []))) as [e|]; [|done].
  run_binds.
  destruct (contact_value "phone" (js_or c0 (JArr []))) as [p|]; [|done].
  by run_binds.
Qed.

Lemma poll_update_alt results :
  CeoFetcherPage.poll_update results
  = match last results with
    | None => Ok None
    | Some latest =>
        status ← get_prop latest "status";
        if strict_eq_str status "success" then
          candidate ← get_prop latest "candidate";
          if truthy candidate then ceo ← build_ceo candidate; Ok (Some ceo)
          else Ok None
        else Ok None
    end.
Proof.
  unfold CeoFetcherPage.poll_update.
  destruct (last results) as [latest|]; [|done].
  destruct (get_prop latest "status") as [status|]; [|done]. run_binds.
  destruct (strict_eq_str status "success"); [|done].
  destruct (get_prop latest "candidate") as [candidate|]; [|done]. run_binds.
  destruct (truthy candidate) eqn:Ht; [|done].
  by apply page_builds_like_waiter.
Qed.

(** X19. The page's poll looks at the last entry of the snapshot only.
    It shows a CEO exactly when that last entry has status ['success']
    and a truthy candidate from which the record can be built, and what
    it shows is the record the waiter builds from the same candidate;
    earlier entries, matching or not, play no part. *)
Theorem page_poll_shows_latest_success (results : list jsval) (info : jsval) :
  CeoFetcherPage.poll_update results = Ok (Some info) <->
  exists earlier latest candidate,
    results = earlier ++ [latest] /\
    get_prop latest "status" = Ok (JStr "success") /\
    get_prop latest "candidate" = Ok candidate /\
    truthy candidate = true /\
    build_ceo candidate = Ok info.
Proof.
  rewrite poll_update_alt. split.
  - destruct (last results) as [latest|] eqn:Hlast; [|discriminate].
    apply last_Some in Hlast as [earlier ->]. intros H.
    bind_inv H. destruct (strict_eq_str a "success") eqn:Hs; [|discriminate].
    apply strict_eq_str_true in Hs as ->.
    bind_inv H. rename a into candidate.
    destruct (truthy candidate) eqn:Ht; [|discriminate].
    bind_inv H. injection H as ->. eauto 10.
  - intros (earlier & latest & candidate & -> & Hs & Hc & Ht & Hb).
    rewrite last_snoc, Hs. run_binds. simpl strict_eq_str. cbn iota.
    rewrite Hc. run_binds. rewrite Ht, Hb. reflexivity.
Qed.

Lemma page_poll_shows_latest_success_witness :
  let older := mk_record "success" "acme.com" "Acme" in
  let latest := JObj (<["status" := JStr "failed"]> (<["item" := JStr "zeta.io"]> ∅)) in
  CeoFetcherPage.poll_update [older; latest] = Ok None /\
  CeoFetcherPage.poll_update [latest; older]
  = Ok (Some (ceo_object (JStr "N/A") (JStr "N/A") (JStr "N/A") (JStr "N/A"))).
Proof.
  intros older latest. split; [reflexivity|].
  apply (proj2 (page_poll_shows_latest_success [latest; older] _)).
  exists [latest], older, (mk_candidate "acme.com" "Acme").
  repeat split; reflexivity.
Defined.

Lemma report_each_spec idx l :
  (forall i r, l !! i = Some r ->
               exists rep, CallbackServer.report_result (idx + i) r = Ok rep) ->
  exists reps,
    CallbackServer.report_each idx l = (reps, None) /\
    length reps = length l /\
    forall i r, l !! i = Some r ->
      exists rep, reps !! i = Some rep /\
                  CallbackServer.report_result (idx + i) r = Ok rep.
Proof.
  revert idx. induction l as [|x l IH]; intros idx H.
  - exists []. repeat split. intros i r Hi. by rewrite lookup_nil in Hi.
  - simpl. destruct (H 0 x eq_refl) as [rep Hrep].
    rewrite Nat.add_0_r in Hrep. rewrite Hrep.
    destruct (IH (S idx)) as (reps & Hreps & Hlen & Hk).
    { intros i r Hi. destruct (H (S i) r Hi) as [rep' Hrep'].
      exists rep'. by rewrite Nat.add_succ_r in Hrep'. }
    rewrite Hreps. exists (rep :: reps). split; [done|].
    split; [simpl; by rewrite Hlen|].
    intros [|i] r Hi; simpl in Hi.
    + injection Hi as <-. exists rep. by rewrite Nat.add_0_r.
    + destruct (Hk i r Hi) as (rep' & ? & ?). exists rep'.
      by rewrite Nat.add_succ_r.
Qed.

(** X20. The stand-alone callback server reports an array body element
    by element: when no element makes the callback fault, it answers 200
    and writes exactly one report per element, in order, the report of
    the element at index i being numbered i+1.  A success report shows
    the same name, title, email and phone as the record the waiter builds
    from that element's candidate. *)
Theorem callback_server_one_report_per_result (l : list jsval) :
  (forall i r, l !! i = Some r ->
               exists rep, CallbackServer.report_result i r = Ok rep) ->
  exists reps,
    CallbackServer.callback (JArr l) = (reps, 200%Z) /\
    length reps = length l /\
    (forall i r, l !! i = Some r ->
       exists rep, reps !! i = Some rep /\
                   CallbackServer.report_result i r = Ok rep) /\
    (forall i r n name title email phone company,
       l !! i = Some r ->
       reps !! i = Some (CallbackServer.Success n name title email phone company) ->
       n = S i /\
       get_prop r "status" = Ok (JStr "success") /\
       exists candidate,
         get_prop r "candidate" = Ok candidate /\ truthy candidate = true /\
         build_ceo candidate = Ok (ceo_object name title email phone)).
Proof.
  intros H. destruct (report_each_spec 0 l H) as (reps & Hreps & Hlen & Hk).
  exists reps. unfold CallbackServer.callback. rewrite Hreps.
  split; [done|]. split; [done|]. split; [exact Hk|].
  intros i r n name title email phone company Hi Hrep.
  destruct (Hk i r Hi) as (rep & Hrep' & Hres). simpl in Hres.
  rewrite Hrep in Hrep'. injection Hrep' as <-.
  unfold CallbackServer.report_result in Hres.
  destruct (get_prop r "status") as [status|] eqn:Hst; [|discriminate].
  rewrite bind_ok in Hres. cbn beta in Hres.
  destruct (strict_eq_str status "success") eqn:Hs.
  - apply strict_eq_str_true in Hs as ->.
    destruct (get_prop r "candidate") as [candidate|] eqn:Hc; [|discriminate].
    rewrite bind_ok in Hres. cbn beta in Hres. cbn [andb] in Hres.
    destruct (truthy candidate) eqn:Ht.
    + destruct (get_prop candidate "contacts") as [c0|] eqn:Hc0; [|discriminate].
      rewrite !bind_ok in Hres. cbn beta in Hres.
      destruct (contact_value "email" (js_or c0 (JArr []))) as [e|] eqn:He;
        [|discriminate].
      rewrite !bind_ok in Hres. cbn beta in Hres.
      destruct (contact_value "phone" (js_or c0 (JArr []))) as [p|] eqn:Hp;
        [|discriminate].
      rewrite !bind_ok in Hres. cbn beta in Hres.
      destruct (get_prop candidate "fullName") as [fn|] eqn:Hfn; [|discriminate].
      rewrite !bind_ok in Hres. cbn beta in Hres.
      destruct (get_prop candidate "headLine") as [hl|] eqn:Hhl; [|discriminate].
      rewrite !bind_ok in Hres. cbn beta in Hres.
      destruct (get_prop candidate "experience") as [ex|] eqn:Hex; [|discriminate].
      rewrite !bind_ok in Hres. cbn beta in Hres.
      destruct (CallbackServer.get_opt (CallbackServer.first_of ex) "company")
        as [co|] eqn:Hco; [|discriminate].
      rewrite !bind_ok in Hres. cbn beta in Hres.
      injection Hres as <- <- <- <- <- <-.
      split; [done|]. split; [done|]. exists candidate.
      split; [done|]. split; [done|].
      unfold build_ceo. rewrite Hc0. run_binds. cbv zeta.
      rewrite Hfn. run_binds. rewrite Hhl. run_binds.
      rewrite He. run_binds. rewrite Hp. by run_binds.
    + cbn iota in Hres. simpl strict_eq_str in Hres. cbn iota in Hres.
      destruct (get_prop r "item"); discriminate.
  - rewrite bind_ok in Hres. cbn beta in Hres. cbn [andb] in Hres. cbn iota in Hres.
    destruct (strict_eq_str status "failed");
      destruct (get_prop r "item"); discriminate.
Qed.

Lemma callback_server_one_report_per_result_witness :
  let r1 := mk_record "success" "acme.com" "Acme" in
  let r2 := JObj (<["status" := JStr "failed"]> (<["item" := JStr "zeta.io"]> ∅)) in
  CallbackServer.callback (JArr [r1; r2])
  = ([CallbackServer.Success 1 (JStr "N/A") (JStr "N/A") (JStr "N/A") (JStr "N/A")
        (JStr "N/A");
      CallbackServer.NotFound 2 (JStr "zeta.io")], 200%Z).
Proof.
  intros r1 r2.
  destruct (callback_server_one_report_per_result [r1; r2])
    as (reps & Hcb & _).
  - intros [|[|i]] r Hr; simpl in Hr; try discriminate;
      injection Hr as <-; eexists; reflexivity.
  - reflexivity.
Defined.

(* ===================================================================== *)
(** * More on de-duplication and normalization                            *)
(* ===================================================================== *)

Lemma dedupe_fixed seen u :
  Forall (fun c => exists n, website_key c = Ok n) u ->
  NoDup (key_of <$> u) ->
  (forall c, c ∈ u -> key_of c <> "" /\ key_of c ∉ seen) ->
  dedupe seen u = Ok u.
Proof.
  intros Hu. revert seen. induction Hu as [|c u [n Hn] _ IH]; intros seen Hnd Hin.
  - reflexivity.
  - rewrite (dedupe_cons _ _ _ _ Hn). pose proof (key_of_ok _ _ Hn) as Hkey.
    rewrite fmap_cons in Hnd. apply NoDup_cons in Hnd as [Hfresh Hnd].
    destruct (Hin c) as [Hne Hseen]; [apply elem_of_cons; by left|].
    rewrite Hkey in Hne, Hseen.
    replace (String.eqb n "" || bool_decide (n ∈ seen)) with false.
    2:{ symmetry. apply orb_false_iff. split.
        - by apply String.eqb_neq.
        - by apply bool_decide_eq_false_2. }
    rewrite IH; [done|done|].
    intros c' Hc'. destruct (Hin c') as [? Hns]; [apply elem_of_cons; by right|].
    split; [done|].
    intros [Heq%elem_of_singleton|?]%elem_of_union; [|done].
    apply Hfresh. rewrite Hkey, <- Heq. apply list_elem_of_fmap. eauto.
Qed.

(** X21. De-duplication is idempotent: a list it returned is returned
    unchanged when it is de-duplicated again. *)
Theorem dedupe_idempotent (results u : list jsval) :
  dedupe ∅ results = Ok u -> dedupe ∅ u = Ok u.
Proof.
  intros H. pose proof (dedupe_ok_keys _ _ _ H) as Htyped.
  destruct (dedupe_props ∅ results Htyped) as (u' & Hu & Hsub & Hnd & Hin & _).
  rewrite Hu in H. injection H as ->.
  apply dedupe_fixed; [|done|done].
  rewrite Forall_forall in Htyped |- *. intros c Hc. apply Htyped.
  by eapply elem_of_sublist.
Qed.

Lemma dedupe_idempotent_witness :
  let A := mk_company "Acme" "https://www.acme.com/" in
  let B := mk_company "Bolt" "http://bolt.io" in
  let A' := mk_company "Acme Inc" "acme.com" in
  dedupe ∅ [A; B; A'] = Ok [A; B] /\ dedupe ∅ [A; B] = Ok [A; B].
Proof.
  intros A B A'.
  assert (dedupe ∅ [A; B; A'] = Ok [A; B]) as H by reflexivity.
  split; [exact H|]. exact (dedupe_idempotent [A; B; A'] [A; B] H).
Defined.




